(** * treeconfigparser: a tree of sections and options, its text formats,
      its cross-references and its conversions.

    Shallow embedding of [treeconfigparser/__init__.py].

    - A Python [str] is a [string]; a character is a code point below 256.
      [comment_char] and [reference_char] are one character each, as their
      documentation says.
    - [self.tree], an [OrderedDict], is an association list in insertion
      order.  Its keys are unique ([wf]); the operations below keep them so.
    - A method that mutates [self] takes the dictionary of [self] and returns
      the dictionary it leaves behind, together with what it returned or
      raised: an exception does not roll the mutations back.
    - [int] is [Z]; Python's [//] and [%] are [Z.div] and [Z.modulo] (both
      floor, sign of the divisor) away from a zero divisor.
    - Of the three conventions of [read_file] and [tofile], [py] is the one
      embedded; the lines of a file stand for the file. *)

From Stdlib Require Import String Ascii List ZArith Lia Bool Arith Sorted.
Import ListNotations.

Local Open Scope string_scope.
Local Open Scope list_scope.

(** ** Python's [str] methods *)

Module Str.

(** [c.isspace()] for a code point below 256. *)
Definition is_space (c : ascii) : bool :=
  let n := nat_of_ascii c in
  (((9 <=? n) && (n <=? 13)) || ((28 <=? n) && (n <=? 32))
   || (n =? 133) || (n =? 160))%nat.

(** [s.isspace()]: at least one character, and all of them white. *)
Fixpoint all_space (s : string) : bool :=
  match s with
  | EmptyString => true
  | String c s' => is_space c && all_space s'
  end.

Definition isspace (s : string) : bool :=
  match s with
  | EmptyString => false
  | _ => all_space s
  end.

Fixpoint lstrip (s : string) : string :=
  match s with
  | EmptyString => EmptyString
  | String c s' => if is_space c then lstrip s' else s
  end.

Fixpoint rstrip (s : string) : string :=
  match s with
  | EmptyString => EmptyString
  | String c s' =>
      match rstrip s' with
      | EmptyString => if is_space c then EmptyString else String c EmptyString
      | r => String c r
      end
  end.

(** [s.strip()] *)
Definition strip (s : string) : string := rstrip (lstrip s).

(** [c in s] for a one-character [c]. *)
Fixpoint contains (c : ascii) (s : string) : bool :=
  match s with
  | EmptyString => false
  | String a s' => Ascii.eqb a c || contains c s'
  end.

(** [s.split(c)] for a one-character separator. *)
Fixpoint split (c : ascii) (s : string) : list string :=
  match s with
  | EmptyString => [EmptyString]
  | String a s' =>
      if Ascii.eqb a c then EmptyString :: split c s'
      else match split c s' with
           | h :: tl => String a h :: tl
           | [] => [String a EmptyString]
           end
  end.

(** [s.split(c, 1)]: cut at the first separator only. *)
Fixpoint split1 (c : ascii) (s : string) : list string :=
  match s with
  | EmptyString => [EmptyString]
  | String a s' =>
      if Ascii.eqb a c then [EmptyString; s']
      else match split1 c s' with
           | h :: tl => String a h :: tl
           | [] => [String a EmptyString]
           end
  end.

(** [s.find(sub)]: index of the first occurrence, [-1] when there is none. *)
Fixpoint find_from (sub s : string) (i : Z) : Z :=
  if prefix sub s then i
  else match s with
       | EmptyString => (-1)%Z
       | String _ s' => find_from sub s' (i + 1)
       end.

Definition find (s sub : string) : Z := find_from sub s 0.

(** [s.replace(old, new)] for a non-empty [old]: the occurrences are taken
    from the left and do not overlap; [skip] counts the characters of the
    occurrence just replaced that are still to be passed over. *)
Fixpoint replace_from (old new : string) (skip : nat) (s : string) : string :=
  match s with
  | EmptyString => EmptyString
  | String c s' =>
      match skip with
      | S k => replace_from old new k s'
      | O =>
          if prefix old s
          then new ++ replace_from old new (String.length old - 1) s'
          else String c (replace_from old new 0 s')
      end
  end.

Definition replace (s old new : string) : string := replace_from old new 0 s.

(** [c.lower()] for a code point below 256: A-Z and the Latin-1 capitals. *)
Definition lower_char (c : ascii) : ascii :=
  let n := nat_of_ascii c in
  if (((65 <=? n) && (n <=? 90))
      || ((192 <=? n) && (n <=? 222) && negb (n =? 215)))%nat
  then ascii_of_nat (n + 32) else c.

Fixpoint lower (s : string) : string :=
  match s with
  | EmptyString => EmptyString
  | String c s' => String (lower_char c) (lower s')
  end.

(** [' ' * n] *)
Fixpoint spaces (n : nat) : string :=
  match n with
  | O => EmptyString
  | S n' => String " " (spaces n')
  end.

(** [s[0]] and [s[-1]], [None] for an index out of range. *)
Definition first (s : string) : option ascii :=
  match s with
  | EmptyString => None
  | String c _ => Some c
  end.

Fixpoint last (s : string) : option ascii :=
  match s with
  | EmptyString => None
  | String c EmptyString => Some c
  | String _ s' => last s'
  end.

(** [s[:-1]] *)
Fixpoint drop_last (s : string) : string :=
  match s with
  | EmptyString => EmptyString
  | String _ EmptyString => EmptyString
  | String c s' => String c (drop_last s')
  end.

(** [s[1:-1]] *)
Definition inner (s : string) : string :=
  match s with
  | EmptyString => EmptyString
  | String _ s' => drop_last s'
  end.

End Str.

(** ** The tree *)

(** What a dictionary of the tree holds under a key: the text of an option,
    or the [TreeConfigParser] of a subsection with its own dictionary. *)
#[warning="-register-all"]
Inductive value : Type :=
| Str (s : string)
| TreeConfigParser (tree : list (string * value)).

(** [self.tree] *)
Definition odict : Type := list (string * value).

(** The exceptions the code raises, and the ones Python raises for it. *)
Inductive exn : Type :=
| IndexError
| KeyError (key : string)
| AttributeError
| TypeError
| ValueError (msg : string)
| ZeroDivisionError
| IndentationError
| CrossReferenceError.

Inductive result (A : Type) : Type :=
| Return (a : A)
| Raise (e : exn).

Arguments Return {A} a.
Arguments Raise {A} e.

(** A method that mutates the tree: the dictionary it finds, what it returns
    or raises, and the dictionary it leaves. *)
Definition M (A : Type) : Type := odict -> result A * odict.

Definition ret {A : Type} (a : A) : M A := fun t => (Return a, t).

Definition throw {A : Type} (e : exn) : M A := fun t => (Raise e, t).

Definition bind {A B : Type} (m : M A) (k : A -> M B) : M B :=
  fun t =>
    match m t with
    | (Return a, t') => k a t'
    | (Raise e, t') => (Raise e, t')
    end.

(** A method that only reads the tree. *)
Definition reading {A : Type} (f : odict -> result A) : M A :=
  fun t => (f t, t).

Notation "x <- m ;; k" := (bind m (fun x => k))
  (at level 61, m at next level, right associativity).
Notation "m ;;; k" := (bind m (fun _ => k))
  (at level 61, right associativity).

(** [for x in l: body(x)], the state of the loop being the tree. *)
Fixpoint for_each {A : Type} (body : A -> M unit) (l : list A) : M unit :=
  match l with
  | [] => ret tt
  | x :: l' => body x ;;; for_each body l'
  end.

(** *** The ordered dictionary *)

(** [self.tree[key]], [None] standing for the [KeyError]. *)
Fixpoint lookup (key : string) (t : odict) : option value :=
  match t with
  | [] => None
  | (k, v) :: t' => if String.eqb k key then Some v else lookup key t'
  end.

(** [key in self.tree] *)
Definition mem (key : string) (t : odict) : bool :=
  match lookup key t with
  | Some _ => true
  | None => false
  end.

(** [self.tree[key] = v]: a key already there keeps its place, a new one goes
    to the end. *)
Fixpoint assign (key : string) (v : value) (t : odict) : odict :=
  match t with
  | [] => [(key, v)]
  | (k, x) :: t' =>
      if String.eqb k key then (k, v) :: t' else (k, x) :: assign key v t'
  end.

(** [del self.tree[key]] *)
Fixpoint delete (key : string) (t : odict) : odict :=
  match t with
  | [] => []
  | (k, x) :: t' => if String.eqb k key then t' else (k, x) :: delete key t'
  end.

(** [self.tree.keys()] *)
Definition keys (t : odict) : list string := map fst t.

(** [isinstance(v, TreeConfigParser)] *)
Definition is_config (v : value) : bool :=
  match v with
  | TreeConfigParser _ => true
  | Str _ => false
  end.

(** The keys of every dictionary of the tree are distinct. *)
Fixpoint wf_value (v : value) : Prop :=
  match v with
  | Str _ => True
  | TreeConfigParser t =>
      NoDup (map fst t)
      /\ (fix all (l : odict) : Prop :=
            match l with
            | [] => True
            | kv :: l' => wf_value (snd kv) /\ all l'
            end) t
  end.

Definition wf (t : odict) : Prop := wf_value (TreeConfigParser t).

(** The value a keylist leads to, from a value of the tree; the empty keylist
    is the value itself. *)
Fixpoint at_keylist (keylist : list string) (v : value) : option value :=
  match keylist with
  | [] => Some v
  | key :: rest =>
      match v with
      | Str _ => None
      | TreeConfigParser t =>
          match lookup key t with
          | Some v' => at_keylist rest v'
          | None => None
          end
      end
  end.

(** [self.tree[key].method(...)] for a method that reads: the dictionary of
    the subsection under [key].  A missing key is a [KeyError]; a [str] has
    none of the methods of the class, which is an [AttributeError]. *)
Definition child (key : string) (t : odict) : result odict :=
  match lookup key t with
  | None => Raise (KeyError key)
  | Some (Str _) => Raise AttributeError
  | Some (TreeConfigParser sub) => Return sub
  end.

(** [self.tree[key].method(...)] for a method that mutates: the subsection is
    changed in place, so it stays under [key] as the method left it. *)
Definition in_child {A : Type} (key : string) (m : M A) : M A :=
  fun t =>
    match child key t with
    | Raise e => (Raise e, t)
    | Return sub =>
        let (r, sub') := m sub in (r, assign key (TreeConfigParser sub') t)
    end.

(** [if update_tree and key not in self.tree:
        self.tree[key] = TreeConfigParser()] *)
Definition create_section (update_tree : bool) (key : string) : M unit :=
  fun t =>
    if update_tree && negb (mem key t)
    then (Return tt, assign key (TreeConfigParser []) t)
    else (Return tt, t).

(** [if keylist:] is false for [None] and for the empty list alike. *)
Definition keylist_or_root (keylist : option (list string)) : list string :=
  match keylist with
  | None => []
  | Some l => l
  end.

(** ** The conversions *)

Definition dquote : ascii := ascii_of_nat 34.

Definition quoted (s : string) : string :=
  String dquote (s ++ String dquote EmptyString).

(** No host library at all: every delegated conversion fails.  It closes the
    examples below, none of which reaches a delegated conversion. *)
Definition no_host : string -> value -> result Empty_set :=
  fun _ _ => Raise TypeError.

Section TreeConfig.

(** The conversions [path], [int], [float], [stringlist], [np_fromfile]
    and [datetime] hand the text to [path.Path], [int], [float], [eval],
    [str.split], [numpy.fromfile] and [datetime.strptime]: what those build
    is a [host] value, and [host_conversion name v] is what the conversion
    registered under [name] does with [v]. *)
Variable host : Type.
Variable host_conversion : string -> value -> result host.

(** What [get] and [string_conversion] hand back. *)
Inductive pyvalue : Type :=
| PyValue (v : value)
| PyBool (b : bool)
| PyInt (n : Z)
| PyException (e : exn)
| PyHost (h : host).

Definition string_to_string (v : value) : result pyvalue :=
  Return (PyValue v).

Definition string_to_bool (v : value) : result pyvalue :=
  match v with
  | TreeConfigParser _ => Raise AttributeError
  | Str s =>
      if existsb (String.eqb (Str.lower s)) ["true"; "yes"; "on"; "1"]
      then Return (PyBool true)
      else if existsb (String.eqb (Str.lower s)) ["false"; "no"; "off"; "0"]
      then Return (PyBool false)
      else Return (PyException
                     (ValueError (quoted s ++ " cannot be converted to bool")))
  end.

(** [logging]'s [DEBUG], [INFO], [WARNING], [ERROR], [CRITICAL] *)
Definition levels : list (string * Z) :=
  [("debug", 10%Z); ("info", 20%Z); ("warning", 30%Z); ("error", 40%Z);
   ("critical", 50%Z)].

Fixpoint level_of (name : string) (l : list (string * Z)) : option Z :=
  match l with
  | [] => None
  | (k, n) :: l' => if String.eqb k name then Some n else level_of name l'
  end.

Definition string_to_log_level (v : value) : result pyvalue :=
  match v with
  | TreeConfigParser _ => Raise AttributeError
  | Str s =>
      match level_of (Str.lower s) levels with
      | Some n => Return (PyInt n)
      | None =>
          Raise (ValueError
                   (quoted s ++ " cannot be converted to logging level"))
      end
  end.

Definition delegated (name : string) (v : value) : result pyvalue :=
  match host_conversion name v with
  | Return h => Return (PyHost h)
  | Raise e => Raise e
  end.

(** The registry, [conversions]. *)
Definition conversions : list (string * (value -> result pyvalue)) :=
  [("string", string_to_string);
   ("path", delegated "path");
   ("bool", string_to_bool);
   ("int", delegated "int");
   ("float", delegated "float");
   ("stringlist", delegated "stringlist");
   ("log_level", string_to_log_level);
   ("np_fromfile", delegated "np_fromfile");
   ("datetime", delegated "datetime")].

Fixpoint conversion_of (to_type : string)
    (l : list (string * (value -> result pyvalue)))
  : option (value -> result pyvalue) :=
  match l with
  | [] => None
  | (k, f) :: l' =>
      if String.eqb k to_type then Some f else conversion_of to_type l'
  end.

(** [string_conversion(value, to_type)], without further keyword arguments. *)
Definition string_conversion (v : value) (to_type : string) : result pyvalue :=
  match conversion_of to_type conversions with
  | Some f => f v
  | None => Raise TypeError
  end.

(** ** The methods of [TreeConfigParser] *)

(** [self.get(keylist, to_type=to_type)] *)
Fixpoint get (keylist : list string) (to_type : string) (t : odict)
  : result pyvalue :=
  match keylist with
  | [] => Raise IndexError
  | [key] =>
      match lookup key t with
      | None => Raise (KeyError key)
      | Some v => string_conversion v to_type
      end
  | key :: rest =>
      match child key t with
      | Raise e => Raise e
      | Return sub => get rest to_type sub
      end
  end.

(** [self.set(keylist, value, update_tree)] *)
Fixpoint set (keylist : list string) (v : string) (update_tree : bool)
  : M unit :=
  match keylist with
  | [] => throw IndexError
  | [key] => fun t => (Return tt, assign key (Str v) t)
  | key :: rest =>
      create_section update_tree key ;;;
      in_child key (set rest v update_tree)
  end.

(** [self.options(keylist)] *)
Fixpoint options_at (keylist : list string) (t : odict)
  : result (list string) :=
  match keylist with
  | [] => Return (keys t)
  | key :: rest =>
      match child key t with
      | Raise e => Raise e
      | Return sub => options_at rest sub
      end
  end.

Definition options (keylist : option (list string)) (t : odict)
  : result (list string) :=
  options_at (keylist_or_root keylist) t.

(** [self.remove_option(keylist)] *)
Fixpoint remove_option (keylist : list string) : M unit :=
  match keylist with
  | [] => throw IndexError
  | [key] =>
      fun t =>
        match lookup key t with
        | None => (Raise (KeyError key), t)
        | Some _ => (Return tt, delete key t)
        end
  | key :: rest => in_child key (remove_option rest)
  end.

(** [self.suboptions()], [v] being [self]. *)
Fixpoint suboptions_of (v : value) : list (list string) :=
  match v with
  | Str _ => []
  | TreeConfigParser t =>
      (fix loop (l : odict) : list (list string) :=
         match l with
         | [] => []
         | (key, x) :: l' =>
             (if is_config x
              then map (cons key) (suboptions_of x)
              else [[key]]) ++ loop l'
         end) t
  end.

Definition suboptions (t : odict) : list (list string) :=
  suboptions_of (TreeConfigParser t).

(** [self.merge(config)], the branch without keylist; [config] and [self]
    are two objects with nothing in common. *)
Fixpoint merge_of (config : value) (self : odict) : odict :=
  match config with
  | Str _ => self
  | TreeConfigParser ct =>
      (fix loop (l : odict) (self : odict) : odict :=
         match l with
         | [] => self
         | (key, c) :: l' =>
             loop l'
               (match c with
                | TreeConfigParser _ =>
                    match lookup key self with
                    | Some (TreeConfigParser s) =>
                        assign key (TreeConfigParser (merge_of c s)) self
                    | _ =>
                        assign key (TreeConfigParser (merge_of c [])) self
                    end
                | Str _ => assign key c self
                end)
         end) ct self
  end.

Definition merge_root (config : odict) (self : odict) : odict :=
  merge_of (TreeConfigParser config) self.

(** [self.merge(config, keylist, update_tree)] *)
Fixpoint merge_at (config : odict) (keylist : list string)
    (update_tree : bool) : M unit :=
  match keylist with
  | [] => fun t => (Return tt, merge_root config t)
  | key :: rest =>
      create_section update_tree key ;;;
      in_child key (merge_at config rest update_tree)
  end.

Definition merge (config : odict) (keylist : option (list string))
    (update_tree : bool) : M unit :=
  merge_at config (keylist_or_root keylist) update_tree.

(** The loop of [clone] over the dictionary of [v], filling [clone_cfg]. *)
Fixpoint clone_fill (v : value) (clone_cfg : odict) : odict :=
  match v with
  | Str _ => clone_cfg
  | TreeConfigParser t =>
      (fix loop (l : odict) (clone_cfg : odict) : odict :=
         match l with
         | [] => clone_cfg
         | (key, x) :: l' =>
             loop l'
               (if is_config x
                then assign key (TreeConfigParser (clone_fill x [])) clone_cfg
                else assign key x clone_cfg)
         end) t clone_cfg
  end.

(** [self.clone()], [v] being [self]: a new object, filled key by key. *)
Definition clone_of (v : value) : odict := clone_fill v [].

(** [self.clone(keylist)] *)
Fixpoint clone_at (keylist : list string) (t : odict) : result odict :=
  match keylist with
  | [] => Return (clone_of (TreeConfigParser t))
  | key :: rest =>
      match child key t with
      | Raise e => Raise e
      | Return sub => clone_at rest sub
      end
  end.

Definition clone (keylist : option (list string)) (t : odict)
  : result odict :=
  clone_at (keylist_or_root keylist) t.

(** [self.subconfig(keylist)]: the node itself, named here by its
    dictionary; in Python the caller and the tree share it. *)
Fixpoint subconfig_at (keylist : list string) (t : odict) : result odict :=
  match keylist with
  | [] => Return t
  | key :: rest =>
      match child key t with
      | Raise e => Raise e
      | Return sub => subconfig_at rest sub
      end
  end.

Definition subconfig (keylist : option (list string)) (t : odict)
  : result odict :=
  subconfig_at (keylist_or_root keylist) t.

(** ** Reading a file, convention [py] *)

(** [is_tree_node(line)] *)
Definition is_tree_node (line : string) : bool :=
  let line := Str.strip line in
  (2 <? String.length line)%nat
  && match Str.first line with
     | Some c => Ascii.eqb c "["
     | None => false
     end
  && match Str.last line with
     | Some c => Ascii.eqb c "]"
     | None => false
     end.

(** [keylist[:depth]] *)
Definition slice_to (keylist : list string) (depth : Z) : list string :=
  if (0 <=? depth)%Z then firstn (Z.to_nat depth) keylist
  else firstn (List.length keylist - Z.to_nat (- depth)) keylist.

(** [update_keylist(keylist, depth, indentation)]; the line that the
    [IndentationError] carries is left out. *)
Definition update_keylist (keylist : list string) (depth indentation : Z)
  : result (list string) :=
  if (indentation =? 0)%Z then Raise ZeroDivisionError
  else if negb (depth mod indentation =? 0)%Z then Raise IndentationError
  else
    let depth := (depth / indentation)%Z in
    if (Z.of_nat (List.length keylist) <? depth)%Z
    then Raise IndentationError
    else Return (slice_to keylist depth).

(** [extract_tree_node_py(keylist, line, indentation)] *)
Definition extract_tree_node_py (keylist : list string) (line : string)
    (indentation : Z) : result (list string) :=
  let key := Str.inner (Str.strip line) in
  match update_keylist keylist (Str.find line key - 1) indentation with
  | Raise e => Raise e
  | Return keylist => Return (keylist ++ [key])
  end.

(** The key and the value of a leaf line, as the three [extract_tree_leaf]
    functions cut them. *)
Definition key_value (line : string) : string * string :=
  if Str.contains "=" line
  then
    let split := Str.split1 "=" line in
    (Str.strip (nth 0 split EmptyString), Str.strip (nth 1 split EmptyString))
  else (Str.strip line, EmptyString).

(** [extract_tree_leaf_py(keylist, line, indentation)] *)
Definition extract_tree_leaf_py (keylist : list string) (line : string)
    (indentation : Z) : M (list string) :=
  let (key, v) := key_value line in
  match update_keylist keylist (Str.find line key) indentation with
  | Raise e => throw e
  | Return keylist =>
      set (keylist ++ [key]) v true ;;;
      ret keylist
  end.

(** [read_line_py(line, keylist, comment_char, indentation)] *)
Definition read_line_py (line : string) (keylist : list string)
    (comment_char : ascii) (indentation : Z) : M (list string) :=
  let line := hd EmptyString (Str.split comment_char line) in
  if String.eqb line EmptyString || Str.isspace line then ret keylist
  else if is_tree_node line
  then reading (fun _ => extract_tree_node_py keylist line indentation)
  else extract_tree_leaf_py keylist line indentation.

(** [for line in lines: keylist = read_line_py(line, keylist, ...)] *)
Fixpoint read_lines_py (lines : list string) (keylist : list string)
    (comment_char : ascii) (indentation : Z) : M (list string) :=
  match lines with
  | [] => ret keylist
  | line :: lines' =>
      keylist' <- read_line_py line keylist comment_char indentation ;;
      read_lines_py lines' keylist' comment_char indentation
  end.

(** ** Cross-references *)

(** [has_reference(value, reference_char)] *)
Definition has_reference (v : string) (reference_char : ascii) : bool :=
  (2 <? String.length v)%nat && Str.contains reference_char v.

(** The fields of odd index that are not empty. *)
Fixpoint references_of (fields : list string) (odd : bool) : list string :=
  match fields with
  | [] => []
  | ref :: l =>
      (if odd && negb (String.eqb ref EmptyString) then [ref] else [])
        ++ references_of l (negb odd)
  end.

(** [extract_references(value, reference_char)] *)
Definition extract_references (v : string) (reference_char : ascii)
  : list string :=
  references_of (Str.split reference_char v) false.

(** [reference_char + ref + reference_char] *)
Definition token (reference_char : ascii) (ref : string) : string :=
  String reference_char (ref ++ String reference_char EmptyString).

(** The body of [solve_references_keylist], given what solves the value.
    [self.get(keylist)] hands back what the tree holds; [len] of a
    subsection is a [TypeError]. *)
Definition solve_keylist_with (solve : string -> M string)
    (keylist : list string) : M string :=
  got <- reading (get keylist "string") ;;
  match got with
  | PyValue (Str v) =>
      v' <- solve v ;;
      set keylist v' false ;;;
      ret v'
  | _ => throw TypeError
  end.

(** [for ref in reflist: ...], the loop of [solve_references_string], given
    what solves a keylist. *)
Fixpoint solve_each (solve_keylist : list string -> M string)
    (reference_char : ascii) (reflist : list string) (v : string)
  : M string :=
  match reflist with
  | [] => ret v
  | ref :: reflist' =>
      subvalue <- solve_keylist (Str.split "." ref) ;;
      solve_each solve_keylist reference_char reflist'
        (Str.replace v (token reference_char ref) subvalue)
  end.

(** [solve_references_string(value, max_rec, reference_char)]; [max_rec]
    is never negative where it is looked at. *)
Fixpoint solve_references_string (v : string) (max_rec : nat)
    (reference_char : ascii) : M string :=
  if negb (has_reference v reference_char) then ret v
  else
    match max_rec with
    | O => throw CrossReferenceError
    | S max_rec' =>
        solve_each
          (solve_keylist_with
             (fun s => solve_references_string s max_rec' reference_char))
          reference_char (extract_references v reference_char) v
    end.

(** [solve_references_keylist(keylist, max_rec, reference_char)] *)
Definition solve_references_keylist (keylist : list string) (max_rec : nat)
    (reference_char : ascii) : M string :=
  solve_keylist_with
    (fun s => solve_references_string s max_rec reference_char) keylist.

(** The last lines of [read_file].  For an empty tree [max_rec] is [-1] in
    Python and the loop does not run; here it is [0] and the loop does not
    run. *)
Definition solve_references (reference_char : ascii) : M unit :=
  fun t =>
    let keylistlist := suboptions t in
    let max_rec := (List.length keylistlist - 1)%nat in
    for_each
      (fun keylist =>
         solve_references_keylist keylist max_rec reference_char ;;; ret tt)
      keylistlist t.

(** [self.read_file(file_name, 'py', comment_char, reference_char,
    indentation)], [lines] being the lines of the file without their
    ends. *)
Definition read_file (lines : list string) (comment_char reference_char : ascii)
    (indentation : Z) : M unit :=
  read_lines_py lines [] comment_char indentation ;;;
  solve_references reference_char.

(** ** Writing a file, convention [py] *)

Definition write_tree_node_line_py (depth : nat) (indentation : Z)
    (key : string) : list string :=
  [(Str.spaces (depth * Z.to_nat indentation) ++ "[" ++ key ++ "]")%string].

Definition write_tree_leaf_line_py (depth : nat) (indentation : Z)
    (key v : string) : list string :=
  [(Str.spaces (depth * Z.to_nat indentation) ++ key ++ " = " ++ v)%string].

(** [write_tree_py(tree, depth, indentation)], [v] holding [tree]. *)
Fixpoint write_py_of (v : value) (depth : nat) (indentation : Z)
  : list string :=
  match v with
  | Str _ => []
  | TreeConfigParser t =>
      (fix loop (l : odict) : list string :=
         match l with
         | [] => []
         | (key, x) :: l' =>
             match x with
             | TreeConfigParser _ =>
                 write_tree_node_line_py depth indentation key
                   ++ write_py_of x (S depth) indentation
               | Str s => write_tree_leaf_line_py depth indentation key s
             end ++ loop l'
         end) t
  end.

Definition write_tree_py (t : odict) (depth : nat) (indentation : Z)
  : list string :=
  write_py_of (TreeConfigParser t) depth indentation.

(** [self.tofile(file_name, 'py', indentation)]: the lines written. *)
Definition tofile (t : odict) (indentation : Z) : list string :=
  write_tree_py t 0 indentation.

(** ** Measures and predicates used in the statements *)

(** The number of nodes of a value. *)
Fixpoint size_of (v : value) : nat :=
  match v with
  | Str _ => 1
  | TreeConfigParser t =>
      S ((fix loop (l : odict) : nat :=
            match l with
            | [] => 0
            | kv :: l' => size_of (snd kv) + loop l'
            end) t)
  end.


(** [key1] was put in the dictionary before [key2]. *)
Definition before (key1 key2 : string) (t : odict) : Prop :=
  exists l1 l2, keys t = l1 ++ key1 :: l2 /\ In key2 l2.

(** The order of a depth-first walk that visits a node before its children
    and the children in insertion order: two keylists are compared at the
    first key where they part. *)
Inductive precedes : odict -> list string -> list string -> Prop :=
| precedes_here (t : odict) (key1 key2 : string) (rest1 rest2 : list string) :
    before key1 key2 t ->
    precedes t (key1 :: rest1) (key2 :: rest2)
| precedes_below (t sub : odict) (key : string) (rest1 rest2 : list string) :
    lookup key t = Some (TreeConfigParser sub) ->
    precedes sub rest1 rest2 ->
    precedes t (key :: rest1) (key :: rest2).


(** What one turn of the loop of [merge] does to [self] for the key [key]
    of [config], holding [c]. *)
Definition merged_in (c : value) (old : option value) : value :=
  match c with
  | Str s => Str s
  | TreeConfigParser csub =>
      match old with
      | Some (TreeConfigParser ssub) => TreeConfigParser (merge_root csub ssub)
      | _ => TreeConfigParser (merge_root csub [])
      end
  end.


(** ** One budget for the whole pass

    The resolution pass as the specification words it, to be compared with
    [solve_references]: one budget, set to the number of options less one
    when the pass starts, that every nested resolution takes one unit from,
    whichever option of the outer enumeration it works for; a nested
    resolution that finds the budget at zero raises [CrossReferenceError].
    The state is the budget left and the tree.  [fuel] bounds the nesting,
    which the budget bounds already. *)

Definition shared_solve_keylist_with
    (solve : string -> nat * odict -> result string * (nat * odict))
    (keylist : list string) (st : nat * odict)
  : result string * (nat * odict) :=
  let (budget, t) := st in
  match get keylist "string" t with
  | Return (PyValue (Str v)) =>
      match solve v (budget, t) with
      | (Return v', (budget', t')) =>
          match set keylist v' false t' with
          | (Return _, t'') => (Return v', (budget', t''))
          | (Raise e, t'') => (Raise e, (budget', t''))
          end
      | (Raise e, st') => (Raise e, st')
      end
  | Return _ => (Raise TypeError, st)
  | Raise e => (Raise e, st)
  end.

Fixpoint shared_solve_each
    (solve_keylist :
       list string -> nat * odict -> result string * (nat * odict))
    (reference_char : ascii) (reflist : list string) (v : string)
    (st : nat * odict) : result string * (nat * odict) :=
  match reflist with
  | [] => (Return v, st)
  | ref :: reflist' =>
      match st with
      | (O, _) => (Raise CrossReferenceError, st)
      | (S budget, t) =>
          match solve_keylist (Str.split "." ref) (budget, t) with
          | (Return subvalue, st') =>
              shared_solve_each solve_keylist reference_char reflist'
                (Str.replace v (token reference_char ref) subvalue) st'
          | (Raise e, st') => (Raise e, st')
          end
      end
  end.

Fixpoint shared_solve_string (fuel : nat) (v : string)
    (reference_char : ascii) (st : nat * odict)
  : result string * (nat * odict) :=
  if negb (has_reference v reference_char) then (Return v, st)
  else
    match fuel with
    | O => (Raise CrossReferenceError, st)
    | S fuel' =>
        shared_solve_each
          (shared_solve_keylist_with
             (fun s => shared_solve_string fuel' s reference_char))
          reference_char (extract_references v reference_char) v st
    end.

Fixpoint shared_for_each (fuel : nat) (reference_char : ascii)
    (keylistlist : list (list string)) (st : nat * odict)
  : result unit * (nat * odict) :=
  match keylistlist with
  | [] => (Return tt, st)
  | keylist :: keylistlist' =>
      match shared_solve_keylist_with
              (fun s => shared_solve_string fuel s reference_char)
              keylist st with
      | (Return _, st') => shared_for_each fuel reference_char keylistlist' st'
      | (Raise e, st') => (Raise e, st')
      end
  end.

Definition shared_solve_references (reference_char : ascii) (t : odict)
  : result unit * odict :=
  let keylistlist := suboptions t in
  let budget := (List.length keylistlist - 1)%nat in
  let (r, st) :=
    shared_for_each (S budget) reference_char keylistlist (budget, t) in
  (r, snd st).


(** ** Trees that the convention [py] can write and read back *)


(** A key without reserved characters: not empty, no white space at either
    end, no [=], no comment character, no [[] in front. *)
Definition legal_key (comment_char : ascii) (key : string) : bool :=
  negb (String.eqb key EmptyString)
  && String.eqb (Str.strip key) key
  && negb (Str.contains "=" key)
  && negb (Str.contains comment_char key)
  && match Str.first key with
     | Some c => negb (Ascii.eqb c "[")
     | None => true
     end.

(** A value without reserved characters: no white space at either end, no
    comment character. *)
Definition legal_value (comment_char : ascii) (v : string) : bool :=
  String.eqb (Str.strip v) v && negb (Str.contains comment_char v).

Fixpoint legal_of (comment_char : ascii) (v : value) : bool :=
  match v with
  | Str s => legal_value comment_char s
  | TreeConfigParser t =>
      (fix loop (l : odict) : bool :=
         match l with
         | [] => true
         | kv :: l' =>
             legal_key comment_char (fst kv)
             && legal_of comment_char (snd kv) && loop l'
         end) t
  end.

Definition legal_tree (comment_char : ascii) (t : odict) : bool :=
  legal_of comment_char (TreeConfigParser t).



(** No value holds a reference. *)
Fixpoint plain_of (reference_char : ascii) (v : value) : bool :=
  match v with
  | Str s => negb (has_reference s reference_char)
  | TreeConfigParser t =>
      (fix loop (l : odict) : bool :=
         match l with
         | [] => true
         | kv :: l' => plain_of reference_char (snd kv) && loop l'
         end) t
  end.

Definition plain_tree (reference_char : ascii) (t : odict) : bool :=
  plain_of reference_char (TreeConfigParser t).

(** The options of a tree with their values, in the order of [suboptions]. *)
Fixpoint leaves_of (v : value) : list (list string * string) :=
  match v with
  | Str _ => []
  | TreeConfigParser t =>
      (fix loop (l : odict) : list (list string * string) :=
         match l with
         | [] => []
         | kv :: l' =>
             match snd kv with
             | Str s => [([fst kv], s)]
             | TreeConfigParser _ =>
                 map (fun kl => (fst kv :: fst kl, snd kl))
                   (leaves_of (snd kv))
             end ++ loop l'
         end) t
  end.

Definition leaves (t : odict) : list (list string * string) :=
  leaves_of (TreeConfigParser t).




(** The key that [extract_tree_node_py] or [extract_tree_leaf_py] cuts out of
    a line, [line] being the text before the comment character. *)
Definition line_key (line : string) : string :=
  if is_tree_node line
  then Str.inner (Str.strip line)
  else fst (key_value line).

(** The width as the code measures it, and hands to [update_keylist]: the
    index at which [line.find(key)] first meets the text of the key, less
    one for a header.  It is no count of white characters. *)
Definition line_width (line : string) : Z :=
  if is_tree_node line
  then (Str.find line (Str.inner (Str.strip line)) - 1)%Z
  else Str.find line (fst (key_value line)).

(** The indentation width of a line as the documentation words it: the
    number of white characters in front of the line. *)
Fixpoint leading_width (line : string) : Z :=
  match line with
  | EmptyString => 0%Z
  | String c line' =>
      if Str.is_space c then (1 + leading_width line')%Z else 0%Z
  end.

(** The lines on which [line.find(key)] meets the key where it stands: the
    key is not empty and starts with a character that is not white and, in
    a header, is not the opening bracket. *)
Definition key_in_front (line : string) : bool :=
  match Str.first (line_key line) with
  | Some c =>
      negb (Str.is_space c) && negb (is_tree_node line && Ascii.eqb c "[")
  | None => false
  end.

(** ** Predicates on keylists and trees used in the further statements *)

(** Two keylists that part at some key: neither leads into the other. *)
Definition diverge (keylist keylist' : list string) : Prop :=
  exists p key key' rest rest',
    key <> key'
    /\ keylist = p ++ key :: rest
    /\ keylist' = p ++ key' :: rest'.

(** The keylist goes through an option: one of its keys, not the last one,
    holds a text. *)
Definition through_option (keylist : list string) (t : odict) : Prop :=
  exists p rest s,
    keylist = p ++ rest /\ p <> [] /\ rest <> []
    /\ at_keylist p (TreeConfigParser t) = Some (Str s).

(** [t] holds all of [config] already: under every key of [config], the
    same option, or a subsection that holds all of the subsection of
    [config]. *)
Inductive absorbed : odict -> odict -> Prop :=
| absorbed_nil (t : odict) : absorbed [] t
| absorbed_str (key s : string) (config t : odict) :
    lookup key t = Some (Str s) ->
    absorbed config t ->
    absorbed ((key, Str s) :: config) t
| absorbed_section (key : string) (csub config t tsub : odict) :
    lookup key t = Some (TreeConfigParser tsub) ->
    absorbed csub tsub ->
    absorbed config t ->
    absorbed ((key, TreeConfigParser csub) :: config) t.

(** The text of the option that a reference names, empty when it names
    none. *)
Definition referenced (t : odict) (ref : string) : string :=
  match at_keylist (Str.split "." ref) (TreeConfigParser t) with
  | Some (Str w) => w
  | _ => EmptyString
  end.

(** ** [substitution] *)

(** [s.replace('', new)]: [new] before every character and at the end. *)
Fixpoint interleave (new s : string) : string :=
  match s with
  | EmptyString => new
  | String c s' => (new ++ String c (interleave new s'))%string
  end.

(** [s.replace(old, new)], whatever [old] is. *)
Definition str_replace (s old new : string) : string :=
  if String.eqb old EmptyString then interleave new s
  else Str.replace s old new.

(** [self.substitution(old_string, new_string)], the branch without keylist,
    [v] being [self]: every key keeps its place and gets its new value. *)
Fixpoint substitution_of (old_string new_string : string) (v : value)
  : odict :=
  match v with
  | Str _ => []
  | TreeConfigParser t =>
      (fix loop (l : odict) : odict :=
         match l with
         | [] => []
         | (key, x) :: l' =>
             (key,
              match x with
              | TreeConfigParser _ =>
                  TreeConfigParser (substitution_of old_string new_string x)
              | Str s => Str (str_replace s old_string new_string)
              end) :: loop l'
         end) t
  end.

Definition substitution_root (old_string new_string : string) (t : odict)
  : odict :=
  substitution_of old_string new_string (TreeConfigParser t).

(** [self.substitution(old_string, new_string, keylist)] *)
Fixpoint substitution_at (old_string new_string : string)
    (keylist : list string) : M unit :=
  match keylist with
  | [] => fun t => (Return tt, substitution_root old_string new_string t)
  | key :: rest =>
      in_child key (substitution_at old_string new_string rest)
  end.

Definition substitution (old_string new_string : string)
    (keylist : option (list string)) : M unit :=
  substitution_at old_string new_string (keylist_or_root keylist).

(** ** The convention [cpp] and the writer of the convention [flat] *)

(** ['.'.join(keylist)] *)
Definition join (keylist : list string) : string :=
  String.concat "." keylist.

(** [extract_tree_leaf_cpp(line)] *)
Definition extract_tree_leaf_cpp (line : string) : M unit :=
  let (key, v) := key_value line in
  set (Str.split "." key) v true.

(** [read_line_cpp(line, comment_char)] *)
Definition read_line_cpp (line : string) (comment_char : ascii) : M unit :=
  let line := Str.strip (hd EmptyString (Str.split comment_char line)) in
  if negb (String.eqb line EmptyString) && negb (Str.isspace line)
  then extract_tree_leaf_cpp line
  else ret tt.

(** [for line in lines: read_line_cpp(line, comment_char)] *)
Definition read_lines_cpp (lines : list string) (comment_char : ascii)
  : M unit :=
  for_each (fun line => read_line_cpp line comment_char) lines.

(** [self.read_file(file_name, 'cpp', comment_char, reference_char)] *)
Definition read_file_cpp (lines : list string)
    (comment_char reference_char : ascii) : M unit :=
  read_lines_cpp lines comment_char ;;;
  solve_references reference_char.

Definition write_tree_leaf_line_cpp (keylist : list string) (v : string)
  : list string :=
  [(join keylist ++ " = " ++ v)%string].

(** [write_tree_cpp(tree, keylist)], [v] holding [tree]. *)
Fixpoint write_cpp_of (v : value) (keylist : list string) : list string :=
  match v with
  | Str _ => []
  | TreeConfigParser t =>
      (fix loop (l : odict) : list string :=
         match l with
         | [] => []
         | (key, x) :: l' =>
             match x with
             | TreeConfigParser _ => write_cpp_of x (keylist ++ [key])
             | Str s => write_tree_leaf_line_cpp (keylist ++ [key]) s
             end ++ loop l'
         end) t
  end.

Definition write_tree_cpp (t : odict) (keylist : list string)
  : list string :=
  write_cpp_of (TreeConfigParser t) keylist.

(** [self.tofile(file_name, 'cpp')] and [self.tofile(file_name, 'flat')]:
    the lines written. *)
Definition tofile_cpp (t : odict) : list string := write_tree_cpp t [].

Definition tofile_flat (t : odict) : list string := write_tree_py t 0 0.



(** What [substitution] makes of a value of the tree. *)
Definition substituted (old_string new_string : string) (x : value)
  : value :=
  match x with
  | TreeConfigParser sub =>
      TreeConfigParser (substitution_root old_string new_string sub)
  | Str s => Str (str_replace s old_string new_string)
  end.

(** The line of the convention [cpp] for an option. *)
Definition cpp_line (keylist : list string) (v : string) : string :=
  (join keylist ++ " = " ++ v)%string.


End TreeConfig.

Arguments PyValue {host} v.
Arguments PyBool {host} b.
Arguments PyInt {host} n.
Arguments PyException {host} e.
Arguments PyHost {host} h.
Arguments string_conversion {host} host_conversion v to_type.
Arguments get {host} host_conversion keylist to_type t.
Arguments solve_keylist_with {host} host_conversion solve keylist _.
Arguments solve_references_string {host} host_conversion v max_rec
  reference_char _.
Arguments solve_references_keylist {host} host_conversion keylist max_rec
  reference_char _.
Arguments solve_references {host} host_conversion reference_char _.
Arguments read_file {host} host_conversion lines comment_char reference_char
  indentation _.
Arguments shared_solve_references {host} host_conversion reference_char t.
Arguments string_to_string {host} v.
Arguments string_to_bool {host} v.
Arguments string_to_log_level {host} v.
Arguments conversions {host} host_conversion.
Arguments conversion_of {host} to_type l.
Arguments read_file_cpp {host} host_conversion lines comment_char
  reference_char _.

(** * Properties *)

Ltac run :=
  unfold bind, ret, throw, reading, create_section, in_child, child in *.

(** ** The ordered dictionary *)

Lemma lookup_assign_same (key : string) (v : value) (t : odict) :
  lookup key (assign key v t) = Some v.
Proof.
  induction t as [|[k x] t IH]; simpl.
  - now rewrite String.eqb_refl.
  - destruct (String.eqb k key) eqn:E; simpl; rewrite E; auto.
Qed.

Lemma lookup_assign_other (key key' : string) (v : value) (t : odict) :
  key <> key' -> lookup key' (assign key v t) = lookup key' t.
Proof.
  intros Hne. induction t as [|[k x] t IH]; simpl.
  - destruct (String.eqb key key') eqn:E; auto.
    apply String.eqb_eq in E. contradiction.
  - destruct (String.eqb k key) eqn:E; simpl.
    + apply String.eqb_eq in E. subst k.
      destruct (String.eqb key key') eqn:E'; auto.
      apply String.eqb_eq in E'. contradiction.
    + now rewrite IH.
Qed.

Lemma assign_lookup_id (key : string) (v : value) (t : odict) :
  lookup key t = Some v -> assign key v t = t.
Proof.
  induction t as [|[k x] t IH]; simpl; [discriminate|].
  destruct (String.eqb k key) eqn:E; intros H.
  - now inversion H.
  - now rewrite IH.
Qed.

Lemma lookup_none_keys (key : string) (t : odict) :
  lookup key t = None <-> ~ In key (keys t).
Proof.
  induction t as [|[k x] t IH]; simpl.
  - tauto.
  - destruct (String.eqb k key) eqn:E.
    + apply String.eqb_eq in E. split; [discriminate | intros H; exfalso; auto].
    + apply String.eqb_neq in E. rewrite IH. tauto.
Qed.

Lemma lookup_some_keys (key : string) (v : value) (t : odict) :
  lookup key t = Some v -> In key (keys t).
Proof.
  intros H. destruct (in_dec string_dec key (keys t)) as [|Hn]; auto.
  apply lookup_none_keys in Hn. congruence.
Qed.

Lemma assign_absent (key : string) (v : value) (t : odict) :
  lookup key t = None -> assign key v t = t ++ [(key, v)].
Proof.
  induction t as [|[k x] t IH]; simpl; auto.
  destruct (String.eqb k key); [discriminate|].
  intros H. now rewrite IH.
Qed.

Lemma assign_assign (key : string) (v w : value) (t : odict) :
  assign key w (assign key v t) = assign key w t.
Proof.
  induction t as [|[k x] t IH]; simpl.
  - now rewrite String.eqb_refl.
  - destruct (String.eqb k key) eqn:E; simpl; rewrite E; auto.
    now rewrite IH.
Qed.

Lemma keys_assign_present (key : string) (v : value) (t : odict) :
  In key (keys t) -> keys (assign key v t) = keys t.
Proof.
  induction t as [|[k x] t IH]; simpl; [tauto|].
  destruct (String.eqb k key) eqn:E; simpl; auto.
  apply String.eqb_neq in E. intros [H|H]; [contradiction|].
  now rewrite IH.
Qed.

Lemma mem_lookup (key : string) (t : odict) :
  mem key t = true <-> lookup key t <> None.
Proof.
  unfold mem. destruct (lookup key t); split; congruence.
Qed.

(** *** Induction on a tree: through the subsections and along the keys *)

Lemma odict_ind (P : odict -> Prop) :
  P [] ->
  (forall key s t, P t -> P ((key, Str s) :: t)) ->
  (forall key sub t, P sub -> P t -> P ((key, TreeConfigParser sub) :: t)) ->
  forall t, P t.
Proof.
  intros Hnil Hstr Hsec.
  assert (H : forall n t, size_of (TreeConfigParser t) < n -> P t).
  { induction n as [|n IH]; intros t Hlt; [lia|].
    destruct t as [|[key [s|sub]] t]; auto.
    - apply Hstr, IH. simpl in *. lia.
    - apply Hsec; apply IH; simpl in *; lia. }
  intros t. apply (H (S (size_of (TreeConfigParser t)))). lia.
Qed.

Lemma wf_nil : wf [].
Proof. split; [constructor | exact I]. Qed.

Lemma wf_cons (key : string) (x : value) (t : odict) :
  wf ((key, x) :: t) <-> ~ In key (keys t) /\ wf_value x /\ wf t.
Proof.
  unfold wf. simpl. fold (keys t). split.
  - intros [Hnd [Hx Ht]]. inversion Hnd; subst. repeat split; auto.
  - intros [Hk [Hx [Hnd Ht]]]. repeat split; auto. now constructor.
Qed.

Lemma wf_lookup (t : odict) (key : string) (v : value) :
  wf t -> lookup key t = Some v -> wf_value v.
Proof.
  induction t as [|[k x] t IH]; simpl; [discriminate|].
  intros Hwf. apply wf_cons in Hwf. destruct Hwf as [_ [Hx Hwf]].
  destruct (String.eqb k key); intros H; [now inversion H; subst | auto].
Qed.

Lemma wf_keys (t : odict) : wf t -> NoDup (keys t).
Proof. intros [H _]. exact H. Qed.

(** ** Descending a keylist *)

Lemma at_keylist_str (keylist : list string) (s : string) (v : value) :
  keylist <> [] -> at_keylist keylist (Str s) = Some v -> False.
Proof. destruct keylist; simpl; congruence. Qed.

Lemma set_cons2 (key key' : string) (rest : list string) (v : string)
    (u : bool) :
  set (key :: key' :: rest) v u
  = (create_section u key ;;; in_child key (set (key' :: rest) v u)).
Proof. reflexivity. Qed.

(** ** The claims on [get] and [set] *)

(** C10.  When a key of the keylist that is not the last one holds the text
    of an option, [set] with [update_tree] true raises [AttributeError] and
    leaves the tree as it was: the option is not turned into a section. *)
Theorem set_through_option (p rest : list string) (s v : string) :
  forall t : odict,
    p <> [] -> rest <> [] ->
    at_keylist p (TreeConfigParser t) = Some (Str s) ->
    set (p ++ rest) v true t = (Raise AttributeError, t).
Proof.
  induction p as [|key p IH]; intros t Hp Hrest H; [congruence|].
  simpl in H. destruct (lookup key t) as [x|] eqn:L; [|discriminate].
  assert (Hm : mem key t = true) by (apply mem_lookup; congruence).
  destruct p as [|key' p'].
  - simpl in H. inversion H; subst x.
    destruct rest as [|r rest']; [congruence|].
    simpl app. rewrite set_cons2. run. rewrite Hm. simpl. now rewrite L.
  - simpl app. rewrite set_cons2. run. rewrite Hm. simpl. rewrite L.
    destruct x as [s'|sub].
    + exfalso. eapply at_keylist_str; [|exact H]. discriminate.
    + change (key' :: p' ++ rest) with ((key' :: p') ++ rest).
      rewrite IH; auto; [|discriminate].
      now rewrite assign_lookup_id.
Qed.

(** ** The empty keylist *)

Lemma clone_fill_cons (key : string) (x : value) (l clone_cfg : odict) :
  clone_fill (TreeConfigParser ((key, x) :: l)) clone_cfg
  = clone_fill (TreeConfigParser l)
      (if is_config x
       then assign key (TreeConfigParser (clone_fill x [])) clone_cfg
       else assign key x clone_cfg).
Proof. reflexivity. Qed.

Lemma clone_fill_app (l : odict) :
  forall clone_cfg : odict,
    wf l ->
    (forall key, In key (keys l) -> ~ In key (keys clone_cfg)) ->
    clone_fill (TreeConfigParser l) clone_cfg = clone_cfg ++ l.
Proof.
  induction l as [|key s l IH|key sub l IHsub IH] using odict_ind;
    intros acc Hwf Hdis.
  - simpl. now rewrite app_nil_r.
  - apply wf_cons in Hwf. destruct Hwf as [Hk [_ Hl]].
    rewrite clone_fill_cons. simpl is_config. cbv iota.
    rewrite assign_absent by (apply lookup_none_keys, Hdis; now left).
    rewrite IH; auto.
    + now rewrite <- app_assoc.
    + intros k Hin. unfold keys. rewrite map_app, in_app_iff. simpl.
      intros [H|[H|[]]].
      * apply (Hdis k); [now right | exact H].
      * subst k. contradiction.
  - apply wf_cons in Hwf. destruct Hwf as [Hk [Hsub Hl]].
    rewrite clone_fill_cons. simpl is_config. cbv iota.
    rewrite IHsub; auto. simpl app.
    rewrite assign_absent by (apply lookup_none_keys, Hdis; now left).
    rewrite IH; auto.
    + now rewrite <- app_assoc.
    + intros k Hin. unfold keys. rewrite map_app, in_app_iff. simpl.
      intros [H|[H|[]]].
      * apply (Hdis k); [now right | exact H].
      * subst k. contradiction.
Qed.

Lemma clone_of_wf (t : odict) : wf t -> clone_of (TreeConfigParser t) = t.
Proof.
  intros H. unfold clone_of. rewrite clone_fill_app; auto.
Qed.

(** ** The indentation of the convention [py] *)

Lemma update_keylist_spec (keylist : list string) (width indentation : Z) :
  indentation <> 0%Z ->
  (update_keylist keylist width indentation = Raise IndentationError
   <-> (~ (indentation | width)%Z
        \/ (Z.of_nat (List.length keylist) < width / indentation)%Z))
  /\ (update_keylist keylist width indentation <> Raise IndentationError ->
      update_keylist keylist width indentation
      = Return (slice_to keylist (width / indentation))).
Proof.
  intros Hind. unfold update_keylist.
  destruct (Z.eqb_spec indentation 0) as [|_]; [contradiction|].
  destruct (Z.eqb_spec (width mod indentation) 0) as [Hmod|Hmod]; simpl.
  - apply Z.mod_divide in Hmod; auto.
    destruct (Z.ltb_spec (Z.of_nat (List.length keylist))
                (width / indentation)) as [Hlt|Hge].
    + split; [|congruence]. split; auto.
    + split; auto. split; [discriminate|].
      intros [H|H]; [contradiction | lia].
  - split; [|congruence]. split; auto. intros _. left.
    intros H. apply Hmod. apply Z.mod_divide; auto.
Qed.

Lemma set_raises (keylist : list string) (v : string) (u : bool) :
  forall (t t' : odict) (e : exn),
    set keylist v u t = (Raise e, t') ->
    e = IndexError \/ e = AttributeError \/ exists key, e = KeyError key.
Proof.
  induction keylist as [|key rest IH]; intros t t' e H.
  - inversion H. now left.
  - destruct rest as [|key' rest'].
    + simpl in H. discriminate.
    + rewrite set_cons2 in H. run.
      destruct (u && negb (mem key t)).
      * destruct (lookup key (assign key (TreeConfigParser []) t))
          as [[s|sub]|]; try (inversion H; subst; eauto; fail).
        destruct (set (key' :: rest') v u sub) as [r sub'] eqn:S.
        inversion H; subst. eapply IH; eauto.
      * destruct (lookup key t) as [[s|sub]|];
          try (inversion H; subst; eauto; fail).
        destruct (set (key' :: rest') v u sub) as [r sub'] eqn:S.
        inversion H; subst. eapply IH; eauto.
Qed.

Lemma read_line_py_indentation (line : string) (keylist : list string)
    (comment_char : ascii) (indentation : Z) (t : odict) :
  fst (read_line_py line keylist comment_char indentation t)
  = Raise IndentationError
  <-> (String.eqb (hd EmptyString (Str.split comment_char line)) EmptyString
       || Str.isspace (hd EmptyString (Str.split comment_char line)) = false
       /\ update_keylist keylist
            (line_width (hd EmptyString (Str.split comment_char line)))
            indentation
          = Raise IndentationError).
Proof.
  unfold read_line_py, line_width.
  set (text := hd EmptyString (Str.split comment_char line)).
  destruct (String.eqb text EmptyString || Str.isspace text).
  - simpl. split; [discriminate | intros [H _]; discriminate].
  - destruct (is_tree_node text).
    + unfold reading, extract_tree_node_py. simpl fst.
      destruct (update_keylist keylist
                  (Str.find text (Str.inner (Str.strip text)) - 1)
                  indentation) as [kl|e].
      * split; [discriminate | intros [_ H]; discriminate].
      * split; [intros H; split; auto | intros [_ H]; exact H].
    + unfold extract_tree_leaf_py.
      destruct (key_value text) as [key v]. simpl fst.
      destruct (update_keylist keylist (Str.find text key) indentation)
        as [kl|e].
      * split; [|intros [_ H]; discriminate].
        run. destruct (set (kl ++ [key]) v true t) as [[[]|e] t'] eqn:S;
          simpl; [discriminate|].
        intros H. inversion H; subst e. apply set_raises in S.
        destruct S as [S|[S|[k S]]]; discriminate.
      * split; [intros H; split; auto | intros [_ H]; exact H].
Qed.

Lemma update_keylist_zero (keylist : list string) (width : Z) :
  update_keylist keylist width 0 = Raise ZeroDivisionError.
Proof. reflexivity. Qed.

(** ** [suboptions] *)

Lemma suboptions_nil : suboptions [] = [].
Proof. reflexivity. Qed.

Lemma suboptions_str (key s : string) (t : odict) :
  suboptions ((key, Str s) :: t) = [key] :: suboptions t.
Proof. reflexivity. Qed.

Lemma suboptions_section (key : string) (sub t : odict) :
  suboptions ((key, TreeConfigParser sub) :: t)
  = map (cons key) (suboptions sub) ++ suboptions t.
Proof. reflexivity. Qed.

Lemma suboptions_head (t : odict) (keylist : list string) :
  In keylist (suboptions t) ->
  exists key rest, keylist = key :: rest /\ In key (keys t).
Proof.
  induction t as [|key s t IH|key sub t _ IH] using odict_ind.
  - intros [].
  - rewrite suboptions_str. intros [H|H].
    + exists key, []. split; auto. now left.
    + destruct (IH H) as [k [r [E Hk]]]. exists k, r. split; auto. now right.
  - rewrite suboptions_section, in_app_iff, in_map_iff.
    intros [[r [E _]]|H].
    + exists key, r. split; auto. now left.
    + destruct (IH H) as [k [r [E Hk]]]. exists k, r. split; auto. now right.
Qed.

Lemma suboptions_complete (t : odict) :
  wf t ->
  forall keylist,
    In keylist (suboptions t)
    <-> exists s, at_keylist keylist (TreeConfigParser t) = Some (Str s).
Proof.
  induction t as [|key s t IH|key sub t IHsub IH] using odict_ind;
    intros Hwf keylist.
  - split; [intros [] | intros [s H]].
    destruct keylist; simpl in H; discriminate.
  - apply wf_cons in Hwf. destruct Hwf as [Hk [_ Hwf]].
    rewrite suboptions_str. specialize (IH Hwf keylist). split.
    + intros [E|H].
      * subst keylist. exists s. simpl. now rewrite String.eqb_refl.
      * destruct (suboptions_head _ _ H) as [k [r [E Hin]]]. subst keylist.
        apply IH in H. destruct H as [s' H]. exists s'.
        simpl in *. destruct (String.eqb_spec key k); auto.
        subst k. contradiction.
    + intros [s' H]. destruct keylist as [|k r]; [discriminate|].
      simpl in H. destruct (String.eqb_spec key k).
      * subst k. destruct r; simpl in H; [|discriminate]. now left.
      * right. apply IH. exists s'. exact H.
  - apply wf_cons in Hwf. destruct Hwf as [Hk [Hsub Hwf]].
    rewrite suboptions_section, in_app_iff, in_map_iff.
    specialize (IH Hwf keylist). split.
    + intros [[r [E H]]|H].
      * subst keylist. apply (IHsub Hsub) in H. destruct H as [s H].
        exists s. simpl. rewrite String.eqb_refl. exact H.
      * destruct (suboptions_head _ _ H) as [k [r [E Hin]]]. subst keylist.
        apply IH in H. destruct H as [s' H]. exists s'.
        simpl in *. destruct (String.eqb_spec key k); auto.
        subst k. contradiction.
    + intros [s' H]. destruct keylist as [|k r]; [discriminate|].
      simpl in H. destruct (String.eqb_spec key k).
      * subst k. left. exists r. split; auto.
        apply (IHsub Hsub). exists s'. exact H.
      * right. apply IH. exists s'. exact H.
Qed.

Lemma suboptions_nodup (t : odict) : wf t -> NoDup (suboptions t).
Proof.
  induction t as [|key s t IH|key sub t IHsub IH] using odict_ind;
    intros Hwf.
  - constructor.
  - apply wf_cons in Hwf. destruct Hwf as [Hk [_ Hwf]].
    rewrite suboptions_str. constructor; auto.
    intros H. apply suboptions_head in H.
    destruct H as [k [r [E Hin]]]. inversion E; subst. contradiction.
  - apply wf_cons in Hwf. destruct Hwf as [Hk [Hsub Hwf]].
    rewrite suboptions_section. apply NoDup_app; auto.
    + apply NoDup_map_inv with (f := @tl string).
      rewrite map_map. simpl. rewrite map_id. auto.
    + intros keylist H1 H2. apply in_map_iff in H1.
      destruct H1 as [r [E _]]. subst keylist.
      apply suboptions_head in H2.
      destruct H2 as [k [r' [E Hin]]]. inversion E; subst. contradiction.
Qed.

Lemma before_cons_head (key key2 : string) (x : value) (t : odict) :
  In key2 (keys t) -> before key key2 ((key, x) :: t).
Proof. intros H. exists [], (keys t). split; auto. Qed.

Lemma before_cons_tail (key key1 key2 : string) (x : value) (t : odict) :
  before key1 key2 t -> before key1 key2 ((key, x) :: t).
Proof.
  intros [l1 [l2 [E H]]]. exists (key :: l1), l2. split; auto.
  simpl. fold (keys t). now rewrite E.
Qed.

Lemma precedes_cons_tail (key : string) (x : value) (t : odict)
    (keylist1 keylist2 : list string) :
  ~ In key (keys t) ->
  precedes t keylist1 keylist2 ->
  precedes ((key, x) :: t) keylist1 keylist2.
Proof.
  intros Hk H. destruct H as [t k1 k2 r1 r2 H|t sub k r1 r2 L H].
  - apply precedes_here. now apply before_cons_tail.
  - eapply precedes_below; [|exact H].
    simpl. destruct (String.eqb_spec key k); auto.
    subst k. apply lookup_some_keys in L. contradiction.
Qed.

Lemma StronglySorted_app {A : Type} (R : A -> A -> Prop) (l1 l2 : list A) :
  StronglySorted R l1 -> StronglySorted R l2 ->
  (forall x y, In x l1 -> In y l2 -> R x y) ->
  StronglySorted R (l1 ++ l2).
Proof.
  induction 1 as [|a l1 Hs IH Ha]; intros H2 Hcross; simpl; auto.
  constructor.
  - apply IH; auto. intros x y Hx Hy. apply Hcross; auto. now right.
  - apply Forall_app. split; auto.
    apply Forall_forall. intros y Hy. apply Hcross; auto. now left.
Qed.

Lemma StronglySorted_map {A B : Type} (R : A -> A -> Prop)
    (R' : B -> B -> Prop) (f : A -> B) (l : list A) :
  (forall x y, R x y -> R' (f x) (f y)) ->
  StronglySorted R l -> StronglySorted R' (map f l).
Proof.
  intros Hf. induction 1 as [|a l Hs IH Ha]; simpl; constructor; auto.
  apply Forall_map. eapply Forall_impl; [|exact Ha]. intros y. apply Hf.
Qed.

Lemma suboptions_sorted (t : odict) :
  wf t -> StronglySorted (precedes t) (suboptions t).
Proof.
  induction t as [|key s t IH|key sub t IHsub IH] using odict_ind;
    intros Hwf.
  - constructor.
  - apply wf_cons in Hwf. destruct Hwf as [Hk [_ Hwf]].
    rewrite suboptions_str. constructor.
    + eapply StronglySorted_map with (f := fun x => x) in IH; auto.
      * rewrite map_id in IH. exact IH.
      * intros x y. now apply precedes_cons_tail.
    + apply Forall_forall. intros keylist H.
      apply suboptions_head in H. destruct H as [k [r [E Hin]]]. subst.
      apply precedes_here. now apply before_cons_head.
  - apply wf_cons in Hwf. destruct Hwf as [Hk [Hsub Hwf]].
    rewrite suboptions_section. apply StronglySorted_app.
    + apply StronglySorted_map with (R := precedes sub); auto.
      intros x y Hxy. eapply precedes_below; [|exact Hxy].
      simpl. now rewrite String.eqb_refl.
    + eapply StronglySorted_map with (f := fun x => x) in IH; auto.
      * rewrite map_id in IH. exact IH.
      * intros x y. now apply precedes_cons_tail.
    + intros x y Hx Hy. apply in_map_iff in Hx. destruct Hx as [r [E _]].
      subst x. apply suboptions_head in Hy.
      destruct Hy as [k [r' [E Hin]]]. subst y.
      apply precedes_here. now apply before_cons_head.
Qed.

Lemma before_irreflexive (key : string) (t : odict) :
  NoDup (keys t) -> ~ before key key t.
Proof.
  intros Hnd [l1 [l2 [E Hin]]]. rewrite E in Hnd.
  apply NoDup_remove_2 in Hnd. apply Hnd, in_or_app. now right.
Qed.

Lemma precedes_distinct (t : odict) (keylist1 keylist2 : list string) :
  precedes t keylist1 keylist2 -> wf t -> keylist1 <> keylist2.
Proof.
  induction 1 as [t k1 k2 r1 r2 H|t sub k r1 r2 L H IH]; intros Hwf E.
  - inversion E; subst. eapply before_irreflexive; eauto.
    now apply wf_keys.
  - inversion E; subst. apply IH; auto.
    apply (wf_lookup t k _ Hwf L).
Qed.

(** C6.  In a tree whose dictionaries have distinct keys, [suboptions]
    lists the keylists that lead to an option, all of them and each once,
    in the order of the depth-first walk that follows insertion order; a
    keylist that leads to a section is not listed. *)
Theorem suboptions_preorder (t : odict) :
  wf t ->
  (forall keylist,
      In keylist (suboptions t)
      <-> exists s, at_keylist keylist (TreeConfigParser t) = Some (Str s))
  /\ NoDup (suboptions t)
  /\ StronglySorted (precedes t) (suboptions t)
  /\ (forall keylist, ~ precedes t keylist keylist)
  /\ (forall keylist sub,
         at_keylist keylist (TreeConfigParser t)
         = Some (TreeConfigParser sub) ->
         ~ In keylist (suboptions t)).
Proof.
  intros Hwf. repeat split.
  - apply suboptions_complete; auto.
  - apply suboptions_complete; auto.
  - now apply suboptions_nodup.
  - now apply suboptions_sorted.
  - intros keylist H. now apply (precedes_distinct t keylist keylist H).
  - intros keylist sub H Hin. apply suboptions_complete in Hin; auto.
    destruct Hin as [s Hs]. congruence.
Qed.

(** The example of the documentation. *)
Example suboptions_example :
  suboptions
    [("option1", Str "1");
     ("section1",
      TreeConfigParser
        [("option2", Str "2");
         ("subsection11", TreeConfigParser [("option3", Str "3")])])]
  = [["option1"]; ["section1"; "option2"];
     ["section1"; "subsection11"; "option3"]].
Proof. reflexivity. Qed.

(** ** [merge] *)

Lemma merge_root_nil (self : odict) : merge_root [] self = self.
Proof. reflexivity. Qed.

Lemma merge_root_cons (key : string) (c : value) (l self : odict) :
  merge_root ((key, c) :: l) self
  = merge_root l (assign key (merged_in c (lookup key self)) self).
Proof.
  destruct c as [s|csub]; [reflexivity|].
  unfold merged_in.
  destruct (lookup key self) as [[s|ssub]|] eqn:L;
    unfold merge_root; simpl; rewrite L; reflexivity.
Qed.

Lemma merge_root_other (l : odict) :
  forall (self : odict) (key : string),
    ~ In key (keys l) ->
    lookup key (merge_root l self) = lookup key self.
Proof.
  induction l as [|[k c] l IH]; intros self key Hk; [reflexivity|].
  rewrite merge_root_cons. simpl in Hk. rewrite IH by tauto.
  apply lookup_assign_other. tauto.
Qed.

Lemma merge_root_lookup (l : odict) :
  forall (self : odict) (key : string) (c : value),
    NoDup (keys l) ->
    lookup key l = Some c ->
    lookup key (merge_root l self)
    = Some (merged_in c (lookup key self)).
Proof.
  induction l as [|[k c0] l IH]; intros self key c Hnd H; [discriminate|].
  rewrite merge_root_cons. simpl in H, Hnd. inversion Hnd; subst.
  destruct (String.eqb_spec k key).
  - subst k. inversion H; subst c0.
    rewrite merge_root_other by assumption.
    apply lookup_assign_same.
  - rewrite (IH _ _ _ H3 H). now rewrite lookup_assign_other.
Qed.

Lemma merge_root_wins (keylist : list string) :
  forall (config self : odict) (s : string),
    wf config ->
    at_keylist keylist (TreeConfigParser config) = Some (Str s) ->
    at_keylist keylist (TreeConfigParser (merge_root config self))
    = Some (Str s).
Proof.
  induction keylist as [|key rest IH]; intros config self s Hwf H;
    [discriminate|].
  simpl in H. destruct (lookup key config) as [c|] eqn:L; [|discriminate].
  simpl. rewrite (merge_root_lookup config self key c (wf_keys config Hwf) L).
  destruct c as [s'|csub]; [exact H|].
  pose proof (wf_lookup config key _ Hwf L) as Hc.
  unfold merged_in. destruct (lookup key self) as [[?|ssub]|];
    apply IH; auto.
Qed.

Lemma merge_at_target (config : odict) (keylist : list string) (u : bool) :
  forall t target : odict,
    at_keylist keylist (TreeConfigParser t)
    = Some (TreeConfigParser target) ->
    exists t',
      merge_at config keylist u t = (Return tt, t')
      /\ at_keylist keylist (TreeConfigParser t')
         = Some (TreeConfigParser (merge_root config target)).
Proof.
  induction keylist as [|key rest IH]; intros t target H.
  - simpl in H. inversion H; subst. eexists. split; reflexivity.
  - simpl in H. destruct (lookup key t) as [x|] eqn:L; [|discriminate].
    assert (Hm : mem key t = true) by (apply mem_lookup; congruence).
    destruct x as [s|sub].
    { destruct rest; simpl in H; discriminate. }
    destruct (IH _ _ H) as [sub' [E Hat]].
    exists (assign key (TreeConfigParser sub') t). split.
    + simpl. run. rewrite Hm, andb_false_r, L, E. reflexivity.
    + simpl. rewrite lookup_assign_same. exact Hat.
Qed.

(** C5.  [merge] brings every key of [config] into the section the keylist
    leads to.  Under a key where [config] holds an option, the section then
    holds that option, whatever it held; where [config] holds a subsection
    and the section held one, it holds the merge of the two; where
    [config] holds a subsection and the section held an option or nothing,
    it holds the merge of that subsection into a new, empty one.  The other
    keys of the section are untouched, and every option of [config] is
    read back from the merged section under the same keylist. *)
Theorem merge_imports (config : odict) :
  wf config ->
  (forall self key c,
      lookup key config = Some c ->
      lookup key (merge_root config self)
      = Some (match c with
              | Str s => Str s
              | TreeConfigParser csub =>
                  match lookup key self with
                  | Some (TreeConfigParser ssub) =>
                      TreeConfigParser (merge_root csub ssub)
                  | _ => TreeConfigParser (merge_root csub [])
                  end
              end))
  /\ (forall self key,
         lookup key config = None ->
         lookup key (merge_root config self) = lookup key self)
  /\ (forall self keylist s,
         at_keylist keylist (TreeConfigParser config) = Some (Str s) ->
         at_keylist keylist (TreeConfigParser (merge_root config self))
         = Some (Str s))
  /\ (forall t keylist u target,
         at_keylist keylist (TreeConfigParser t)
         = Some (TreeConfigParser target) ->
         exists t',
           merge config (Some keylist) u t = (Return tt, t')
           /\ at_keylist keylist (TreeConfigParser t')
              = Some (TreeConfigParser (merge_root config target))).
Proof.
  intros Hwf. repeat split.
  - intros self key c L.
    apply (merge_root_lookup config self key c (wf_keys config Hwf) L).
  - intros self key L. apply merge_root_other.
    now apply lookup_none_keys.
  - intros self keylist s. now apply merge_root_wins.
  - intros t keylist u target. apply merge_at_target.
Qed.

(** The example of the documentation. *)
Example merge_example :
  merge [("option2", Str "3"); ("option3", Str "3")] (Some ["section1"]) false
    [("option1", Str "1");
     ("section1", TreeConfigParser [("option2", Str "2")])]
  = (Return tt,
     [("option1", Str "1");
      ("section1",
       TreeConfigParser [("option2", Str "3"); ("option3", Str "3")])]).
Proof. reflexivity. Qed.

(** ** The budget of the cross-references *)

Lemma solve_each_mono (f g : list string -> M string)
    (reference_char : ascii) (reflist : list string) :
  (forall keylist t r t',
      f keylist t = (Return r, t') -> g keylist t = (Return r, t')) ->
  forall v t r t',
    solve_each f reference_char reflist v t = (Return r, t') ->
    solve_each g reference_char reflist v t = (Return r, t').
Proof.
  intros Hfg. induction reflist as [|ref reflist IH]; intros v t r t' H;
    [exact H|].
  simpl in *. run.
  destruct (f (Str.split "." ref) t) as [[sub|e] t1] eqn:F; [|discriminate].
  rewrite (Hfg _ _ _ _ F). now apply IH.
Qed.

(** ** The [str] methods on the lines of the writer *)

Lemma split_absent (c : ascii) (s : string) :
  Str.contains c s = false -> Str.split c s = [s].
Proof.
  induction s as [|a s IH]; simpl; auto.
  destruct (Ascii.eqb a c); simpl; [discriminate|].
  intros H. now rewrite IH.
Qed.




Lemma lstrip_spaces (n : nat) (s : string) :
  Str.lstrip (Str.spaces n ++ s) = Str.lstrip s.
Proof. induction n as [|n IH]; simpl; auto. Qed.

Lemma length_lstrip (s : string) :
  String.length (Str.lstrip s) <= String.length s.
Proof.
  induction s as [|c s IH]; simpl; auto.
  destruct (Str.is_space c); simpl; lia.
Qed.

Lemma length_rstrip (s : string) :
  String.length (Str.rstrip s) <= String.length s.
Proof.
  induction s as [|c s IH]; simpl; auto.
  destruct (Str.rstrip s); [destruct (Str.is_space c)|]; simpl in *; lia.
Qed.

Lemma lstrip_same_length (s : string) :
  String.length (Str.lstrip s) = String.length s -> Str.lstrip s = s.
Proof.
  destruct s as [|c s]; simpl; auto.
  destruct (Str.is_space c); auto.
  pose proof (length_lstrip s). lia.
Qed.

Lemma strip_fixed (s : string) :
  Str.strip s = s -> Str.lstrip s = s /\ Str.rstrip s = s.
Proof.
  intros H. unfold Str.strip in H.
  assert (L : Str.lstrip s = s).
  { apply lstrip_same_length.
    pose proof (length_rstrip (Str.lstrip s)).
    pose proof (length_lstrip s). rewrite H in *. lia. }
  split; auto. now rewrite L in H.
Qed.

Lemma lstrip_fixed_head (c : ascii) (s : string) :
  Str.lstrip (String c s) = String c s -> Str.is_space c = false.
Proof.
  simpl. destruct (Str.is_space c); auto.
  intros H. pose proof (length_lstrip s) as Hl.
  rewrite H in Hl. simpl in Hl. lia.
Qed.






Lemma prefix_app (k r : string) : prefix k (k ++ r) = true.
Proof.
  induction k as [|c k IH]; simpl.
  - now destruct r.
  - destruct (ascii_dec c c); [exact IH | congruence].
Qed.

Lemma prefix_head (c a : ascii) (k s : string) :
  c <> a -> prefix (String c k) (String a s) = false.
Proof.
  intros H. simpl. destruct (ascii_dec c a); [contradiction | reflexivity].
Qed.





Lemma append_assoc (a b c : string) :
  ((a ++ b) ++ c = a ++ (b ++ c))%string.
Proof. induction a as [|x a IH]; simpl; [reflexivity | now rewrite IH]. Qed.

Lemma string_length_app (a b : string) :
  String.length (a ++ b) = String.length a + String.length b.
Proof. induction a as [|c a IH]; simpl; auto. Qed.

(** ** One line of the writer, read *)

Lemma legal_key_inv (comment_char : ascii) (key : string) :
  legal_key comment_char key = true ->
  exists c k,
    key = String c k /\ Str.is_space c = false /\ c <> "["%char
    /\ Str.rstrip key = key
    /\ Str.contains "=" key = false
    /\ Str.contains comment_char key = false.
Proof.
  unfold legal_key. intros H.
  repeat (apply andb_prop in H; destruct H as [H ?]).
  destruct key as [|c k]; [discriminate|].
  apply String.eqb_eq, strip_fixed in H3. destruct H3 as [Hl Hr].
  exists c, k. repeat split; auto.
  - eapply lstrip_fixed_head; eauto.
  - simpl in H0. intros E. subst c. discriminate.
  - now destruct (Str.contains "=" (String c k)).
  - now destruct (Str.contains comment_char (String c k)).
Qed.











(** ** The lines of the writer, read: the options are set in turn *)

Lemma write_tree_py_str (key s : string) (t : odict) (depth : nat)
    (indentation : Z) :
  write_tree_py ((key, Str s) :: t) depth indentation
  = write_tree_leaf_line_py depth indentation key s
      ++ write_tree_py t depth indentation.
Proof. reflexivity. Qed.

Lemma write_tree_py_section (key : string) (sub t : odict) (depth : nat)
    (indentation : Z) :
  write_tree_py ((key, TreeConfigParser sub) :: t) depth indentation
  = (write_tree_node_line_py depth indentation key
       ++ write_tree_py sub (S depth) indentation)
      ++ write_tree_py t depth indentation.
Proof. reflexivity. Qed.

Lemma leaves_str (key s : string) (t : odict) :
  leaves ((key, Str s) :: t) = ([key], s) :: leaves t.
Proof. reflexivity. Qed.

Lemma leaves_section (key : string) (sub t : odict) :
  leaves ((key, TreeConfigParser sub) :: t)
  = map (fun kl => (key :: fst kl, snd kl)) (leaves sub) ++ leaves t.
Proof. reflexivity. Qed.

Lemma legal_tree_cons (comment_char : ascii) (key : string) (x : value)
    (t : odict) :
  legal_tree comment_char ((key, x) :: t)
  = legal_key comment_char key && legal_of comment_char x
    && legal_tree comment_char t.
Proof. reflexivity. Qed.






(** ** Setting the options of a tree in turn builds the tree *)











(** ** A tree without references goes through the resolution unchanged *)

Lemma set_same (keylist : list string) (v : string) (u : bool) :
  forall t : odict,
    keylist <> [] ->
    at_keylist keylist (TreeConfigParser t) = Some (Str v) ->
    set keylist v u t = (Return tt, t).
Proof.
  induction keylist as [|key rest IH]; intros t Hne H; [congruence|].
  simpl in H. destruct (lookup key t) as [x|] eqn:L; [|discriminate].
  assert (Hm : mem key t = true) by (apply mem_lookup; congruence).
  destruct rest as [|key' rest'].
  - simpl in *. inversion H; subst x. now rewrite assign_lookup_id.
  - rewrite set_cons2. run. rewrite Hm, andb_false_r, L.
    destruct x as [s|sub].
    + exfalso. eapply at_keylist_str; [|exact H]. discriminate.
    + rewrite IH; auto; [|discriminate]. now rewrite assign_lookup_id.
Qed.

Lemma plain_tree_cons (reference_char : ascii) (key : string) (x : value)
    (t : odict) :
  plain_tree reference_char ((key, x) :: t)
  = plain_of reference_char x && plain_tree reference_char t.
Proof. reflexivity. Qed.

Lemma plain_lookup (reference_char : ascii) (t : odict) (key : string)
    (x : value) :
  plain_tree reference_char t = true -> lookup key t = Some x ->
  plain_of reference_char x = true.
Proof.
  induction t as [|[k y] t IH]; simpl; [discriminate|].
  rewrite plain_tree_cons. intros H. apply andb_prop in H.
  destruct H as [Hy Ht].
  destruct (String.eqb k key); intros E; [now inversion E; subst | auto].
Qed.

Lemma plain_at_keylist (reference_char : ascii) (keylist : list string) :
  forall (x : value) (v : string),
    plain_of reference_char x = true ->
    at_keylist keylist x = Some (Str v) ->
    has_reference v reference_char = false.
Proof.
  induction keylist as [|key rest IH]; intros x v Hx H.
  - simpl in H. inversion H; subst x. simpl in Hx.
    now destruct (has_reference v reference_char).
  - simpl in H. destruct x as [s|t]; [discriminate|].
    destruct (lookup key t) as [y|] eqn:L; [|discriminate].
    apply (IH y); auto. eapply plain_lookup; eauto.
Qed.

(** ** Writing, then reading *)


(** * Further properties of the tree *)

(** ** [set] *)

Lemma wf_assign (key : string) (x : value) (t : odict) :
  wf t -> wf_value x -> wf (assign key x t).
Proof.
  induction t as [|[k y] t IH]; intros Hwf Hx.
  - simpl. apply wf_cons. split; [intros []|split; [exact Hx | apply wf_nil]].
  - apply wf_cons in Hwf. destruct Hwf as [Hk [Hy Hwf]]. simpl.
    destruct (String.eqb_spec k key).
    + apply wf_cons. split; [exact Hk | split; [exact Hx | exact Hwf]].
    + apply wf_cons. split; [|split; [exact Hy | now apply IH]].
      intros Hin. apply Hk.
      destruct (in_dec string_dec key (keys t)) as [Hkey|Hkey].
      * now rewrite keys_assign_present in Hin.
      * apply lookup_none_keys in Hkey.
        rewrite assign_absent in Hin by assumption.
        unfold keys in Hin. rewrite map_app, in_app_iff in Hin.
        destruct Hin as [Hin|[Hin|[]]];
          [exact Hin | simpl in Hin; congruence].
Qed.

Lemma keys_assign (key : string) (x : value) (t : odict) :
  keys (assign key x t) = if mem key t then keys t else keys t ++ [key].
Proof.
  unfold mem. destruct (lookup key t) as [y|] eqn:L.
  - apply keys_assign_present. eapply lookup_some_keys; eauto.
  - rewrite assign_absent by assumption. unfold keys. now rewrite map_app.
Qed.

Lemma at_keylist_nil_tree (keylist : list string) :
  keylist <> [] -> at_keylist keylist (TreeConfigParser []) = None.
Proof. destruct keylist; [congruence | reflexivity]. Qed.

Lemma set_in_empty (keylist : list string) (v : string) :
  keylist <> [] -> exists t', set keylist v true [] = (Return tt, t').
Proof.
  induction keylist as [|key rest IH]; intros Hne; [congruence|].
  destruct rest as [|key' rest'].
  - eexists. reflexivity.
  - destruct IH as [sub' E]; [discriminate|].
    rewrite set_cons2. run. unfold mem.
    cbn [lookup negb andb assign]. rewrite String.eqb_refl.
    rewrite E. eexists. reflexivity.
Qed.

(** X1.  A [set] that raises leaves the tree as it was, whatever
    [update_tree] is: no section is created on the way to a failure. *)
Theorem set_failure_changes_nothing (keylist : list string) (v : string)
    (u : bool) :
  forall (t t' : odict) (e : exn),
    set keylist v u t = (Raise e, t') -> t' = t.
Proof.
  induction keylist as [|key rest IH]; intros t t' e H.
  - now inversion H.
  - destruct rest as [|key' rest']; [discriminate|].
    rewrite set_cons2 in H. run.
    destruct (u && negb (mem key t)) eqn:C.
    + apply andb_prop in C. destruct C as [Hu C]. subst u.
      rewrite lookup_assign_same in H.
      destruct (set_in_empty (key' :: rest') v) as [sub' E];
        [discriminate|].
      rewrite E in H. discriminate.
    + destruct (lookup key t) as [[s|sub]|] eqn:L;
        try (now inversion H).
      destruct (set (key' :: rest') v u sub) as [r sub'] eqn:S.
      inversion H; subst r. apply IH in S. subst sub'.
      now rewrite assign_lookup_id.
Qed.

(** X2.  With [update_tree] true, [set] returns for every keylist that is
    not empty and does not go through an option. *)
Theorem set_update_tree_returns (keylist : list string) (v : string) :
  forall t : odict,
    keylist <> [] -> ~ through_option keylist t ->
    exists t', set keylist v true t = (Return tt, t').
Proof.
  induction keylist as [|key rest IH]; intros t Hne Hthrough; [congruence|].
  destruct rest as [|key' rest'].
  - eexists. reflexivity.
  - rewrite set_cons2. run. unfold mem.
    destruct (lookup key t) as [[s|sub]|] eqn:L; cbn [andb negb].
    + exfalso. apply Hthrough. exists [key], (key' :: rest'), s.
      repeat split; try discriminate. simpl. now rewrite L.
    + rewrite L. destruct (IH sub) as [sub' E]; [discriminate| |].
      * intros [p [r [s [E [Hp [Hr H]]]]]]. apply Hthrough.
        exists (key :: p), r, s. repeat split; auto; try discriminate.
        -- simpl. now rewrite E.
        -- simpl. now rewrite L.
      * rewrite E. eexists. reflexivity.
    + rewrite lookup_assign_same.
      destruct (set_in_empty (key' :: rest') v) as [sub' E];
        [discriminate|].
      rewrite E. eexists. reflexivity.
Qed.

(** X3.  With [update_tree] false, [set] returns exactly when the keylist
    without its last key leads to a section: it creates no section. *)
Theorem set_without_update_tree (keylist : list string) (v : string) :
  forall t : odict,
    keylist <> [] ->
    ((exists t', set keylist v false t = (Return tt, t'))
     <-> exists sub,
         at_keylist (removelast keylist) (TreeConfigParser t)
         = Some (TreeConfigParser sub)).
Proof.
  induction keylist as [|key rest IH]; intros t Hne; [congruence|].
  destruct rest as [|key' rest'].
  - simpl. split; intros _; eexists; reflexivity.
  - rewrite set_cons2. run. simpl andb. cbv iota.
    change (removelast (key :: key' :: rest'))
      with (key :: removelast (key' :: rest')).
    cbn [at_keylist].
    destruct (lookup key t) as [[s|sub]|] eqn:L.
    + split; [intros [t' H]; discriminate|].
      intros [sub H]. destruct (removelast (key' :: rest')); discriminate.
    + specialize (IH sub). destruct IH as [IH1 IH2]; [discriminate|].
      split.
      * intros [t' H].
        destruct (set (key' :: rest') v false sub) as [[[]|e] sub'] eqn:S;
          [|discriminate].
        apply IH1. eexists. reflexivity.
      * intros H. destruct (IH2 H) as [sub' E]. rewrite E.
        eexists. reflexivity.
    + split; [intros [t' H]; discriminate | intros [sub H]; discriminate].
Qed.

Lemma wf_set (keylist : list string) (v : string) (u : bool) :
  forall (t t' : odict) (r : result unit),
    wf t -> set keylist v u t = (r, t') -> wf t'.
Proof.
  induction keylist as [|key rest IH]; intros t t' r Hwf H.
  - inversion H; subst. exact Hwf.
  - destruct rest as [|key' rest'].
    + simpl in H. inversion H; subst. apply wf_assign; [exact Hwf | exact I].
    + rewrite set_cons2 in H. run.
      set (t1 := if u && negb (mem key t)
                 then assign key (TreeConfigParser []) t else t) in *.
      assert (Hwf1 : wf t1).
      { unfold t1. destruct (u && negb (mem key t)); auto.
        apply wf_assign; [exact Hwf | apply wf_nil]. }
      assert (E : (if u && negb (mem key t)
                   then (Return tt, assign key (TreeConfigParser []) t)
                   else (Return tt, t)) = (Return tt, t1)).
      { unfold t1. now destruct (u && negb (mem key t)). }
      rewrite E in H. clear E.
      destruct (lookup key t1) as [[s|sub]|] eqn:L;
        try (inversion H; subst; exact Hwf1).
      destruct (set (key' :: rest') v u sub) as [r' sub'] eqn:S.
      inversion H; subst. apply wf_assign; auto.
      eapply IH; [|exact S]. apply (wf_lookup t1 key _ Hwf1 L).
Qed.

(** X4.  [set] changes nothing off its way: a keylist that parts from the
    one that was set leads where it led before, whether [set] returned or
    raised. *)
Theorem set_elsewhere (p : list string) (key key' : string)
    (rest rest' : list string) (v : string) (u : bool) :
  forall (t t' : odict) (r : result unit),
    key <> key' ->
    set (p ++ key :: rest) v u t = (r, t') ->
    at_keylist (p ++ key' :: rest') (TreeConfigParser t')
    = at_keylist (p ++ key' :: rest') (TreeConfigParser t).
Proof.
  induction p as [|a p IH]; intros t t' r Hne H.
  - simpl app in *. cbn [at_keylist].
    destruct rest as [|k2 rest2].
    + simpl in H. inversion H; subst.
      now rewrite lookup_assign_other.
    + rewrite set_cons2 in H. run.
      destruct (u && negb (mem key t)).
      * rewrite lookup_assign_same in H.
        destruct (set (k2 :: rest2) v u []) as [r' sub'].
        inversion H; subst. now rewrite !lookup_assign_other.
      * destruct (lookup key t) as [[s|sub]|];
          try (inversion H; subst; reflexivity).
        destruct (set (k2 :: rest2) v u sub) as [r' sub'].
        inversion H; subst. now rewrite lookup_assign_other.
  - change ((a :: p) ++ key :: rest) with (a :: (p ++ key :: rest)) in H.
    change ((a :: p) ++ key' :: rest') with (a :: (p ++ key' :: rest')).
    destruct (p ++ key :: rest) as [|k2 rest2] eqn:Ekl.
    { destruct p; discriminate. }
    rewrite set_cons2 in H. run. cbn [at_keylist].
    destruct (u && negb (mem a t)) eqn:C.
    + apply andb_prop in C. destruct C as [_ C].
      assert (L : lookup a t = None).
      { unfold mem in C. destruct (lookup a t); [discriminate | reflexivity]. }
      rewrite lookup_assign_same in H.
      destruct (set (k2 :: rest2) v u []) as [r' sub'] eqn:S.
      inversion H; subst. rewrite lookup_assign_same, L.
      rewrite (IH _ _ _ Hne S).
      apply at_keylist_nil_tree. destruct p; discriminate.
    + destruct (lookup a t) as [[s|sub]|] eqn:L;
        try (inversion H; subst; now rewrite L).
      destruct (set (k2 :: rest2) v u sub) as [r' sub'] eqn:S.
      inversion H; subst. rewrite lookup_assign_same.
      apply (IH _ _ _ Hne S).
Qed.

(** X5.  [set] keeps the order of the keys: the first key of the keylist
    stays where it is when the dictionary has it, and goes to the end when
    it is new. *)
Theorem set_keeps_order (key : string) (rest : list string) (v : string)
    (u : bool) (t t' : odict) :
  set (key :: rest) v u t = (Return tt, t') ->
  keys t' = if mem key t then keys t else keys t ++ [key].
Proof.
  intros H. destruct rest as [|key' rest'].
  - simpl in H. inversion H; subst. apply keys_assign.
  - rewrite set_cons2 in H. run. unfold mem in *.
    destruct (lookup key t) as [x|] eqn:L.
    + rewrite andb_false_r, L in H.
      destruct x as [s|sub]; [discriminate|].
      destruct (set (key' :: rest') v u sub) as [r sub'].
      inversion H; subst. rewrite keys_assign. unfold mem. now rewrite L.
    + destruct u; cbn [andb negb] in H.
      * rewrite lookup_assign_same in H.
        destruct (set (key' :: rest') v true []) as [r sub'].
        inversion H; subst. rewrite assign_assign, keys_assign.
        unfold mem. now rewrite L.
      * rewrite L in H. discriminate.
Qed.

(** ** [remove_option] *)

Lemma remove_option_cons2 (key key' : string) (rest : list string) :
  remove_option (key :: key' :: rest)
  = in_child key (remove_option (key' :: rest)).
Proof. reflexivity. Qed.

Lemma lookup_delete_other (key key' : string) (t : odict) :
  key <> key' -> lookup key' (delete key t) = lookup key' t.
Proof.
  intros Hne. induction t as [|[k x] t IH]; simpl; auto.
  destruct (String.eqb_spec k key); simpl.
  - subst k. destruct (String.eqb_spec key key'); [contradiction | auto].
  - now rewrite IH.
Qed.

Lemma keys_delete_incl (key k : string) (t : odict) :
  In k (keys (delete key t)) -> In k (keys t).
Proof.
  induction t as [|[a x] t IH]; simpl; auto.
  destruct (String.eqb a key); simpl; [now right | tauto].
Qed.

Lemma lookup_delete_same (key : string) (t : odict) :
  NoDup (keys t) -> lookup key (delete key t) = None.
Proof.
  induction t as [|[k x] t IH]; simpl; auto.
  intros Hnd. inversion Hnd; subst.
  destruct (String.eqb_spec k key); simpl.
  - subst k. now apply lookup_none_keys.
  - destruct (String.eqb_spec k key); [contradiction | auto].
Qed.

Lemma wf_delete (key : string) (t : odict) : wf t -> wf (delete key t).
Proof.
  induction t as [|[k x] t IH]; intros Hwf; simpl; auto.
  apply wf_cons in Hwf. destruct Hwf as [Hk [Hx Hwf]].
  destruct (String.eqb k key); auto.
  apply wf_cons. split; [|split; [exact Hx | now apply IH]].
  intros Hin. apply Hk. eapply keys_delete_incl; eauto.
Qed.

Lemma delete_app_absent (key : string) (x : value) (t : odict) :
  lookup key t = None -> delete key (t ++ [(key, x)]) = t.
Proof.
  induction t as [|[k y] t IH]; simpl.
  - now rewrite String.eqb_refl.
  - destruct (String.eqb k key); [discriminate|].
    intros H. now rewrite IH.
Qed.

(** X6.  [remove_option] returns exactly when the keylist, not empty, leads
    to something, an option or a section; when it raises, the tree is as it
    was. *)
Theorem remove_option_returns (keylist : list string) :
  forall t : odict,
    keylist <> [] ->
    ((exists t', remove_option keylist t = (Return tt, t'))
     <-> exists x, at_keylist keylist (TreeConfigParser t) = Some x)
    /\ (forall e t', remove_option keylist t = (Raise e, t') -> t' = t).
Proof.
  induction keylist as [|key rest IH]; intros t Hne; [congruence|].
  destruct rest as [|key' rest'].
  - simpl. destruct (lookup key t) as [x|]; split.
    + split; intros _; eexists; reflexivity.
    + intros e t' H. discriminate.
    + split; [intros [t' H]; discriminate | intros [x H]; discriminate].
    + intros e t' H. now inversion H.
  - rewrite remove_option_cons2. run. cbn [at_keylist].
    destruct (lookup key t) as [[s|sub]|] eqn:L.
    + split; [|intros e t' H; now inversion H].
      split; [intros [t' H]; discriminate | intros [x H]; discriminate].
    + destruct (IH sub) as [[IH1 IH2] IH3]; [discriminate|].
      split; [split|].
      * intros [t' H].
        destruct (remove_option (key' :: rest') sub) as [[[]|e] sub'];
          [|discriminate].
        apply IH1. eexists. reflexivity.
      * intros H. destruct (IH2 H) as [sub' E]. rewrite E.
        eexists. reflexivity.
      * intros e t' H.
        destruct (remove_option (key' :: rest') sub) as [r sub'] eqn:R.
        inversion H; subst r. rewrite (IH3 e sub' eq_refl).
        now rewrite assign_lookup_id.
    + split; [|intros e t' H; now inversion H].
      split; [intros [t' H]; discriminate | intros [x H]; discriminate].
Qed.

(** X7.  After [remove_option] has returned, in a tree with distinct keys,
    the keylist leads nowhere; the section that held the key is still
    there, with that one key deleted, even when nothing is left in it; and
    the keys are still distinct. *)
Theorem remove_option_removes (keylist : list string) :
  forall t t' sub : odict,
    wf t ->
    remove_option keylist t = (Return tt, t') ->
    at_keylist (removelast keylist) (TreeConfigParser t)
    = Some (TreeConfigParser sub) ->
    at_keylist keylist (TreeConfigParser t') = None
    /\ at_keylist (removelast keylist) (TreeConfigParser t')
       = Some (TreeConfigParser (delete (last keylist EmptyString) sub))
    /\ wf t'.
Proof.
  induction keylist as [|key rest IH]; intros t t' sub Hwf H Hparent.
  - discriminate.
  - destruct rest as [|key' rest'].
    + simpl in H, Hparent. inversion Hparent; subst sub.
      destruct (lookup key t); [|discriminate].
      inversion H; subst t'. cbn [at_keylist last].
      rewrite lookup_delete_same by (now apply wf_keys).
      split; [reflexivity|]. split; [reflexivity | now apply wf_delete].
    + rewrite remove_option_cons2 in H. run.
      change (removelast (key :: key' :: rest'))
        with (key :: removelast (key' :: rest')) in *.
      change (last (key :: key' :: rest') EmptyString)
        with (last (key' :: rest') EmptyString).
      cbn [at_keylist] in *.
      destruct (lookup key t) as [[s|sub0]|] eqn:L; try discriminate.
      destruct (remove_option (key' :: rest') sub0) as [r sub0'] eqn:R.
      inversion H; subst r t'. rewrite lookup_assign_same.
      destruct (IH sub0 sub0' sub) as [H1 [H2 H3]]; auto.
      { apply (wf_lookup t key _ Hwf L). }
      split; [exact H1|]. split; [exact H2 | now apply wf_assign].
Qed.

(** X8.  [remove_option] changes nothing off its way: a keylist that parts
    from the one that was removed leads where it led before. *)
Theorem remove_option_elsewhere (p : list string) (key key' : string)
    (rest rest' : list string) :
  forall (t t' : odict) (r : result unit),
    key <> key' ->
    remove_option (p ++ key :: rest) t = (r, t') ->
    at_keylist (p ++ key' :: rest') (TreeConfigParser t')
    = at_keylist (p ++ key' :: rest') (TreeConfigParser t).
Proof.
  induction p as [|a p IH]; intros t t' r Hne H.
  - simpl app in *. cbn [at_keylist].
    destruct rest as [|k2 rest2].
    + simpl in H. destruct (lookup key t); inversion H; subst; auto.
      now rewrite lookup_delete_other.
    + rewrite remove_option_cons2 in H. run.
      destruct (lookup key t) as [[s|sub]|];
        try (inversion H; subst; reflexivity).
      destruct (remove_option (k2 :: rest2) sub) as [r' sub'].
      inversion H; subst. now rewrite lookup_assign_other.
  - change ((a :: p) ++ key :: rest) with (a :: (p ++ key :: rest)) in H.
    change ((a :: p) ++ key' :: rest') with (a :: (p ++ key' :: rest')).
    destruct (p ++ key :: rest) as [|k2 rest2] eqn:Ekl.
    { destruct p; discriminate. }
    rewrite remove_option_cons2 in H. run. cbn [at_keylist].
    destruct (lookup a t) as [[s|sub]|] eqn:L;
      try (inversion H; subst; now rewrite L).
    destruct (remove_option (k2 :: rest2) sub) as [r' sub'] eqn:R.
    inversion H; subst. rewrite lookup_assign_same.
    apply (IH _ _ _ Hne R).
Qed.

(** X9.  An option that [set] has added, without [update_tree], where
    nothing was, is taken away by [remove_option], and the tree is again
    what it was. *)
Theorem remove_option_after_set (keylist : list string) (v : string) :
  forall t t1 : odict,
    at_keylist keylist (TreeConfigParser t) = None ->
    set keylist v false t = (Return tt, t1) ->
    remove_option keylist t1 = (Return tt, t).
Proof.
  induction keylist as [|key rest IH]; intros t t1 Hnone H.
  - discriminate.
  - destruct rest as [|key' rest'].
    + simpl in *. inversion H; subst t1.
      destruct (lookup key t) eqn:L; [discriminate|].
      rewrite lookup_assign_same, assign_absent by assumption.
      now rewrite delete_app_absent.
    + rewrite set_cons2 in H. rewrite remove_option_cons2. run.
      cbn [andb] in H. cbn [at_keylist] in Hnone.
      destruct (lookup key t) as [[s|sub]|] eqn:L; try discriminate.
      destruct (set (key' :: rest') v false sub) as [r sub1] eqn:S.
      inversion H; subst r t1. rewrite lookup_assign_same.
      rewrite (IH sub sub1 Hnone S).
      now rewrite assign_assign, assign_lookup_id.
Qed.

(** ** [merge], further *)

Lemma wf_merge_root (config : odict) :
  forall self : odict,
    wf config -> wf self -> wf (merge_root config self).
Proof.
  induction config as [|key s config IH|key csub config IHsub IH]
    using odict_ind; intros self Hc Hs.
  - exact Hs.
  - apply wf_cons in Hc. destruct Hc as [_ [_ Hc]].
    rewrite merge_root_cons. apply IH; auto.
    apply wf_assign; [exact Hs | exact I].
  - apply wf_cons in Hc. destruct Hc as [_ [Hcsub Hc]].
    rewrite merge_root_cons. apply IH; auto.
    apply wf_assign; auto. unfold merged_in.
    destruct (lookup key self) as [[s|ssub]|] eqn:L.
    + apply IHsub; [exact Hcsub | apply wf_nil].
    + apply IHsub; [exact Hcsub|]. apply (wf_lookup self key _ Hs L).
    + apply IHsub; [exact Hcsub | apply wf_nil].
Qed.

Lemma merge_root_absorbed (config : odict) :
  forall t : odict, absorbed config t -> merge_root config t = t.
Proof.
  induction config as [|key s config IH|key csub config IHsub IH]
    using odict_ind; intros t H.
  - reflexivity.
  - inversion H; subst. rewrite merge_root_cons. simpl merged_in.
    rewrite assign_lookup_id by assumption. now apply IH.
  - inversion H; subst. rewrite merge_root_cons.
    match goal with
    | L : lookup key t = Some _ |- _ => rewrite L; simpl merged_in
    end.
    rewrite IHsub by assumption.
    rewrite assign_lookup_id by assumption. now apply IH.
Qed.

Lemma absorbed_merge_root (config : odict) :
  forall self : odict, wf config -> absorbed config (merge_root config self).
Proof.
  induction config as [|key s config IH|key csub config IHsub IH]
    using odict_ind; intros self Hc.
  - constructor.
  - apply wf_cons in Hc. destruct Hc as [Hk [_ Hc]].
    rewrite merge_root_cons. constructor; [|now apply IH].
    rewrite merge_root_other by assumption. apply lookup_assign_same.
  - apply wf_cons in Hc. destruct Hc as [Hk [Hcsub Hc]].
    rewrite merge_root_cons.
    assert (E : exists X,
               merged_in (TreeConfigParser csub) (lookup key self)
               = TreeConfigParser (merge_root csub X)).
    { unfold merged_in. destruct (lookup key self) as [[s|ssub]|];
        eexists; reflexivity. }
    destruct E as [X E]. rewrite E.
    apply absorbed_section with (tsub := merge_root csub X).
    + rewrite merge_root_other by assumption. apply lookup_assign_same.
    + now apply IHsub.
    + now apply IH.
Qed.

(** X10.  Merging the same configuration a second time changes nothing. *)
Theorem merge_twice (config self : odict) :
  wf config ->
  merge_root config (merge_root config self) = merge_root config self.
Proof.
  intros Hc. apply merge_root_absorbed. now apply absorbed_merge_root.
Qed.

Lemma merge_root_app (config : odict) :
  forall pre : odict,
    wf config ->
    (forall key, In key (keys config) -> ~ In key (keys pre)) ->
    merge_root config pre = pre ++ config.
Proof.
  induction config as [|key s config IH|key csub config IHsub IH]
    using odict_ind; intros pre Hwf Hdis.
  - simpl. now rewrite app_nil_r.
  - apply wf_cons in Hwf. destruct Hwf as [Hk [_ Hwf]].
    assert (L : lookup key pre = None)
      by (apply lookup_none_keys, Hdis; now left).
    rewrite merge_root_cons, L. simpl merged_in.
    rewrite assign_absent by assumption.
    rewrite IH; auto.
    + now rewrite <- app_assoc.
    + intros k Hin. unfold keys. rewrite map_app, in_app_iff. simpl.
      intros [H|[H|[]]].
      * apply (Hdis k); [now right | exact H].
      * subst k. contradiction.
  - apply wf_cons in Hwf. destruct Hwf as [Hk [Hsub Hwf]].
    assert (L : lookup key pre = None)
      by (apply lookup_none_keys, Hdis; now left).
    rewrite merge_root_cons, L. simpl merged_in.
    rewrite (IHsub []); auto. simpl app.
    rewrite assign_absent by assumption.
    rewrite IH; auto.
    + now rewrite <- app_assoc.
    + intros k Hin. unfold keys. rewrite map_app, in_app_iff. simpl.
      intros [H|[H|[]]].
      * apply (Hdis k); [now right | exact H].
      * subst k. contradiction.
Qed.

(** X11.  Merging a configuration into a tree that has none of its keys
    puts a copy of it after what the tree held; merged into an empty tree,
    the result is the configuration itself, whatever [update_tree] is. *)
Theorem merge_into_disjoint (config self : odict) (u : bool) :
  wf config ->
  (forall key, In key (keys config) -> ~ In key (keys self)) ->
  merge config None u self = (Return tt, self ++ config)
  /\ merge config None u [] = (Return tt, config).
Proof.
  intros Hwf Hdis. unfold merge. simpl.
  rewrite merge_root_app by assumption.
  rewrite merge_root_app by (auto; intros k _ []).
  split; reflexivity.
Qed.

(** ** [options], [subconfig] and [clone] *)

(** X12.  [subconfig] returns a section exactly when the keylist leads to
    that section; [options] then returns its keys in their order, and
    [options] raises exactly what [subconfig] raises. *)
Theorem subconfig_and_options (keylist : list string) :
  forall t : odict,
    (forall sub,
        subconfig (Some keylist) t = Return sub
        <-> at_keylist keylist (TreeConfigParser t)
            = Some (TreeConfigParser sub))
    /\ options (Some keylist) t
       = match subconfig (Some keylist) t with
         | Return sub => Return (keys sub)
         | Raise e => Raise e
         end.
Proof.
  unfold subconfig, options. simpl keylist_or_root.
  induction keylist as [|key rest IH]; intros t.
  - simpl. split; [|reflexivity].
    intros sub. split; intros H; inversion H; reflexivity.
  - simpl. unfold child.
    destruct (lookup key t) as [[s|sub0]|] eqn:L.
    + split; [|reflexivity]. intros sub. split; [discriminate|].
      destruct rest; discriminate.
    + apply IH.
    + split; [|reflexivity]. intros sub. split; discriminate.
Qed.

(** X13.  In a tree with distinct keys [clone] returns a tree equal to the
    section that [subconfig] returns, key for key and in the same order,
    and raises what [subconfig] raises. *)
Theorem clone_is_subconfig (keylist : option (list string)) :
  forall t : odict, wf t -> clone keylist t = subconfig keylist t.
Proof.
  unfold clone, subconfig.
  induction (keylist_or_root keylist) as [|key rest IH]; intros t Hwf.
  - simpl. now rewrite clone_of_wf.
  - simpl. unfold child.
    destruct (lookup key t) as [[s|sub]|] eqn:L; auto.
    apply IH. apply (wf_lookup t key _ Hwf L).
Qed.

(** ** Comments and the fields of a split *)

Lemma split_at (c : ascii) (a b : string) :
  Str.contains c a = false ->
  Str.split c (a ++ String c b) = a :: Str.split c b.
Proof.
  induction a as [|x a IH]; simpl.
  - now rewrite Ascii.eqb_refl.
  - destruct (Ascii.eqb x c); simpl; [discriminate|].
    intros H. now rewrite IH.
Qed.

Lemma split_not_nil (c : ascii) (s : string) : Str.split c s <> [].
Proof.
  induction s as [|a s IH]; simpl; [discriminate|].
  destruct (Ascii.eqb a c); [discriminate|].
  destruct (Str.split c s); [congruence | discriminate].
Qed.

(** X18.  What follows the comment character on a line is not read: the
    line is read as the text before it; and a line with nothing but white
    space before the comment character changes neither the keylist nor the
    tree. *)
Theorem comments_are_ignored (text rest : string) (keylist : list string)
    (comment_char : ascii) (indentation : Z) (t : odict) :
  Str.contains comment_char text = false ->
  read_line_py (text ++ String comment_char rest) keylist comment_char
    indentation t
  = read_line_py text keylist comment_char indentation t
  /\ (Str.all_space text = true ->
      read_line_py (text ++ String comment_char rest) keylist comment_char
        indentation t
      = (Return keylist, t)).
Proof.
  intros H. unfold read_line_py.
  rewrite (split_at comment_char text rest H).
  rewrite (split_absent comment_char text H). cbn [hd].
  split; [reflexivity|].
  intros Hs. destruct text as [|c text]; [reflexivity|].
  unfold Str.isspace. rewrite Hs, orb_true_r. reflexivity.
Qed.

(** ** [substitution] *)

Lemma substitution_root_cons (old_string new_string key : string)
    (x : value) (t : odict) :
  substitution_root old_string new_string ((key, x) :: t)
  = (key, substituted old_string new_string x)
      :: substitution_root old_string new_string t.
Proof. destruct x; reflexivity. Qed.

Lemma keys_substitution_root (old_string new_string : string) (t : odict) :
  keys (substitution_root old_string new_string t) = keys t.
Proof.
  induction t as [|[key x] t IH]; [reflexivity|].
  rewrite substitution_root_cons. simpl. now rewrite <- IH.
Qed.

Lemma lookup_substitution_root (old_string new_string key : string)
    (t : odict) :
  lookup key (substitution_root old_string new_string t)
  = option_map (substituted old_string new_string) (lookup key t).
Proof.
  induction t as [|[k x] t IH]; [reflexivity|].
  rewrite substitution_root_cons. simpl.
  destruct (String.eqb k key); [reflexivity | exact IH].
Qed.

Lemma at_keylist_substituted (old_string new_string : string)
    (keylist : list string) :
  forall x : value,
    at_keylist keylist (substituted old_string new_string x)
    = option_map (substituted old_string new_string) (at_keylist keylist x).
Proof.
  induction keylist as [|key rest IH]; intros x; [reflexivity|].
  destruct x as [s|t]; [reflexivity|].
  cbn [substituted at_keylist]. rewrite lookup_substitution_root.
  destruct (lookup key t) as [y|]; [apply IH | reflexivity].
Qed.

Lemma suboptions_substitution_root (old_string new_string : string)
    (t : odict) :
  suboptions (substitution_root old_string new_string t) = suboptions t.
Proof.
  induction t as [|key s t IH|key sub t IHsub IH] using odict_ind.
  - reflexivity.
  - rewrite substitution_root_cons. cbn [substituted].
    rewrite !suboptions_str. now rewrite IH.
  - rewrite substitution_root_cons. cbn [substituted].
    rewrite !suboptions_section. now rewrite IHsub, IH.
Qed.

Lemma wf_substitution_root (old_string new_string : string) (t : odict) :
  wf t -> wf (substitution_root old_string new_string t).
Proof.
  induction t as [|key s t IH|key sub t IHsub IH] using odict_ind;
    intros Hwf.
  - exact Hwf.
  - apply wf_cons in Hwf. destruct Hwf as [Hk [_ Hwf]].
    rewrite substitution_root_cons. apply wf_cons.
    rewrite keys_substitution_root.
    split; [exact Hk | split; [exact I | now apply IH]].
  - apply wf_cons in Hwf. destruct Hwf as [Hk [Hsub Hwf]].
    rewrite substitution_root_cons. apply wf_cons.
    rewrite keys_substitution_root.
    split; [exact Hk | split; [now apply IHsub | now apply IH]].
Qed.

(** X22.  [substitution] without keylist replaces in the text of every
    option and changes nothing else: every keylist leads to what it led to,
    with the replacement done in it, and [suboptions] lists the same
    keylists in the same order. *)
Theorem substitution_everywhere (old_string new_string : string)
    (t : odict) :
  fst (substitution old_string new_string None t) = Return tt
  /\ (forall keylist,
         at_keylist keylist
           (TreeConfigParser (snd (substitution old_string new_string None t)))
         = option_map (substituted old_string new_string)
             (at_keylist keylist (TreeConfigParser t)))
  /\ suboptions (snd (substitution old_string new_string None t))
     = suboptions t.
Proof.
  unfold substitution. simpl.
  split; [reflexivity|]. split.
  - intros keylist.
    apply (at_keylist_substituted old_string new_string keylist
             (TreeConfigParser t)).
  - apply suboptions_substitution_root.
Qed.

(** X23.  [substitution] with a keylist that leads to a section does the
    replacement in that section; with a keylist that leads to an option it
    raises [AttributeError] and leaves the tree as it is. *)
Theorem substitution_under_keylist (old_string new_string : string)
    (keylist : list string) :
  forall t : odict,
    (forall sub,
        at_keylist keylist (TreeConfigParser t)
        = Some (TreeConfigParser sub) ->
        fst (substitution old_string new_string (Some keylist) t)
        = Return tt
        /\ at_keylist keylist
             (TreeConfigParser
                (snd (substitution old_string new_string (Some keylist) t)))
           = Some (TreeConfigParser
                     (substitution_root old_string new_string sub)))
    /\ (forall s,
           keylist <> [] ->
           at_keylist keylist (TreeConfigParser t) = Some (Str s) ->
           substitution old_string new_string (Some keylist) t
           = (Raise AttributeError, t)).
Proof.
  unfold substitution. simpl keylist_or_root.
  induction keylist as [|key rest IH]; intros t.
  - split.
    + intros sub H. simpl in H. inversion H; subst. split; reflexivity.
    + intros s Hne. congruence.
  - cbn [substitution_at at_keylist]. run.
    destruct (lookup key t) as [[s0|sub0]|] eqn:L.
    + split; [intros sub H; destruct rest; discriminate|].
      intros s _ _. reflexivity.
    + destruct (IH sub0) as [IH1 IH2]. split.
      * intros sub H. destruct (IH1 sub H) as [E1 E2].
        destruct (substitution_at old_string new_string rest sub0)
          as [r sub0'].
        simpl in *. subst r. split; [reflexivity|].
        now rewrite lookup_assign_same.
      * intros s _ H. destruct rest as [|key' rest'].
        { simpl in H. discriminate. }
        rewrite (IH2 s) by (auto; discriminate).
        now rewrite assign_lookup_id.
    + split; [intros sub H; discriminate | intros s _ H; discriminate].
Qed.

(** X24.  [substitution] changes nothing off its way: a keylist that parts
    from the one that was given leads where it led before. *)
Theorem substitution_elsewhere (old_string new_string : string)
    (p : list string) (key key' : string) (rest rest' : list string) :
  forall (t t' : odict) (r : result unit),
    key <> key' ->
    substitution old_string new_string (Some (p ++ key :: rest)) t = (r, t') ->
    at_keylist (p ++ key' :: rest') (TreeConfigParser t')
    = at_keylist (p ++ key' :: rest') (TreeConfigParser t).
Proof.
  unfold substitution. simpl keylist_or_root.
  induction p as [|a p IH]; intros t t' r Hne H.
  - simpl app in *. cbn [substitution_at] in H. run. cbn [at_keylist].
    destruct (lookup key t) as [[s|sub]|];
      try (inversion H; subst; reflexivity).
    destruct (substitution_at old_string new_string rest sub) as [r' sub'].
    inversion H; subst. now rewrite lookup_assign_other.
  - change ((a :: p) ++ key :: rest) with (a :: (p ++ key :: rest)) in H.
    change ((a :: p) ++ key' :: rest') with (a :: (p ++ key' :: rest')).
    cbn [substitution_at] in H. run. cbn [at_keylist].
    destruct (lookup a t) as [[s|sub]|] eqn:L;
      try (inversion H; subst; now rewrite L).
    destruct (substitution_at old_string new_string (p ++ key :: rest) sub)
      as [r' sub'] eqn:S.
    inversion H; subst. rewrite lookup_assign_same.
    apply (IH _ _ _ Hne S).
Qed.

(** ** Distinct keys, kept *)

Lemma wf_bind {A B : Type} (m : M A) (k : A -> M B) (t : odict) :
  wf (snd (m t)) ->
  (forall a t1, wf t1 -> wf (snd (k a t1))) ->
  wf (snd (bind m k t)).
Proof.
  intros Hm Hk. unfold bind. destruct (m t) as [[a|e] t1]; simpl in *; auto.
Qed.

Lemma wf_in_child {A : Type} (key : string) (m : M A) (t : odict) :
  wf t ->
  (forall sub, wf sub -> wf (snd (m sub))) ->
  wf (snd (in_child key m t)).
Proof.
  intros Hwf Hm. unfold in_child, child.
  destruct (lookup key t) as [[s|sub]|] eqn:L; simpl; auto.
  pose proof (Hm sub (wf_lookup t key _ Hwf L)) as H.
  destruct (m sub) as [r sub']. simpl in *. now apply wf_assign.
Qed.

Lemma wf_create_section (u : bool) (key : string) (t : odict) :
  wf t -> wf (snd (create_section u key t)).
Proof.
  intros Hwf. unfold create_section.
  destruct (u && negb (mem key t)); simpl; auto.
  apply wf_assign; [exact Hwf | apply wf_nil].
Qed.

Lemma wf_remove_option (keylist : list string) :
  forall t : odict, wf t -> wf (snd (remove_option keylist t)).
Proof.
  induction keylist as [|key rest IH]; intros t Hwf; [exact Hwf|].
  destruct rest as [|key' rest'].
  - simpl. destruct (lookup key t); simpl; auto. now apply wf_delete.
  - rewrite remove_option_cons2. apply wf_in_child; auto.
Qed.

Lemma wf_merge_at (config : odict) (keylist : list string) (u : bool) :
  wf config ->
  forall t : odict, wf t -> wf (snd (merge_at config keylist u t)).
Proof.
  intros Hc. induction keylist as [|key rest IH]; intros t Hwf.
  - simpl. now apply wf_merge_root.
  - cbn [merge_at]. apply wf_bind.
    + now apply wf_create_section.
    + intros _ t1 H1. apply wf_in_child; auto.
Qed.

Lemma wf_substitution_at (old_string new_string : string)
    (keylist : list string) :
  forall t : odict,
    wf t -> wf (snd (substitution_at old_string new_string keylist t)).
Proof.
  induction keylist as [|key rest IH]; intros t Hwf.
  - simpl. now apply wf_substitution_root.
  - cbn [substitution_at]. apply wf_in_child; auto.
Qed.

(** X25.  The methods that change the tree keep the keys of every
    dictionary distinct, whether they return or raise: [set],
    [remove_option], [merge] of a configuration with distinct keys, and
    [substitution]. *)
Theorem methods_keep_keys_distinct (t : odict) :
  wf t ->
  (forall keylist v u, wf (snd (set keylist v u t)))
  /\ (forall keylist, wf (snd (remove_option keylist t)))
  /\ (forall config keylist u,
         wf config -> wf (snd (merge config keylist u t)))
  /\ (forall old_string new_string keylist,
         wf (snd (substitution old_string new_string keylist t))).
Proof.
  intros Hwf. split; [|split; [|split]].
  - intros keylist v u.
    destruct (set keylist v u t) as [r t'] eqn:S. simpl.
    apply (wf_set keylist v u t t' r Hwf S).
  - intros keylist. now apply wf_remove_option.
  - intros config keylist u Hc. unfold merge. now apply wf_merge_at.
  - intros old_string new_string keylist. unfold substitution.
    now apply wf_substitution_at.
Qed.

Lemma wf_set_snd (keylist : list string) (v : string) (u : bool)
    (t : odict) :
  wf t -> wf (snd (set keylist v u t)).
Proof.
  intros Hwf. destruct (set keylist v u t) as [r t'] eqn:S. simpl.
  apply (wf_set keylist v u t t' r Hwf S).
Qed.

Lemma wf_read_lines_py (lines : list string) (comment_char : ascii)
    (indentation : Z) :
  forall (keylist : list string) (t : odict),
    wf t ->
    wf (snd (read_lines_py lines keylist comment_char indentation t)).
Proof.
  induction lines as [|line lines IH]; intros keylist t Hwf; [exact Hwf|].
  cbn [read_lines_py]. apply wf_bind; [|intros kl t1 H1; now apply IH].
  unfold read_line_py.
  destruct (String.eqb _ EmptyString || Str.isspace _); [exact Hwf|].
  destruct (is_tree_node _); [exact Hwf|].
  unfold extract_tree_leaf_py. destruct (key_value _) as [key v].
  destruct (update_keylist keylist _ indentation) as [kl|e]; [|exact Hwf].
  apply wf_bind; [now apply wf_set_snd | intros _ t1 H1; exact H1].
Qed.

Lemma wf_read_lines_cpp (lines : list string) (comment_char : ascii) :
  forall t : odict,
    wf t -> wf (snd (read_lines_cpp lines comment_char t)).
Proof.
  unfold read_lines_cpp.
  induction lines as [|line lines IH]; intros t Hwf; [exact Hwf|].
  cbn [for_each]. apply wf_bind; [|intros _ t1 H1; now apply IH].
  unfold read_line_cpp.
  destruct (negb _ && negb _); [|exact Hwf].
  unfold extract_tree_leaf_cpp. destruct (key_value _) as [key v].
  now apply wf_set_snd.
Qed.

(** ** The convention [cpp] *)

Lemma write_tree_cpp_str (key s : string) (t : odict)
    (keylist : list string) :
  write_tree_cpp ((key, Str s) :: t) keylist
  = cpp_line (keylist ++ [key]) s :: write_tree_cpp t keylist.
Proof. reflexivity. Qed.

Lemma write_tree_cpp_section (key : string) (sub t : odict)
    (keylist : list string) :
  write_tree_cpp ((key, TreeConfigParser sub) :: t) keylist
  = write_tree_cpp sub (keylist ++ [key]) ++ write_tree_cpp t keylist.
Proof. reflexivity. Qed.

Lemma write_tree_cpp_leaves (t : odict) :
  forall keylist : list string,
    write_tree_cpp t keylist
    = map (fun kl => cpp_line (keylist ++ fst kl) (snd kl)) (leaves t).
Proof.
  induction t as [|key s t IH|key sub t IHsub IH] using odict_ind;
    intros keylist.
  - reflexivity.
  - rewrite write_tree_cpp_str, leaves_str. simpl map. now rewrite IH.
  - rewrite write_tree_cpp_section, leaves_section, map_app, map_map.
    rewrite IHsub, IH. f_equal. apply map_ext. intros [kl v]. simpl.
    now rewrite <- app_assoc.
Qed.

Lemma leaves_suboptions (t : odict) : map fst (leaves t) = suboptions t.
Proof.
  induction t as [|key s t IH|key sub t IHsub IH] using odict_ind.
  - reflexivity.
  - rewrite leaves_str, suboptions_str. simpl. now rewrite IH.
  - rewrite leaves_section, suboptions_section, map_app, map_map.
    rewrite <- IHsub, <- IH, map_map. reflexivity.
Qed.

(** X27.  In the convention [cpp] [tofile] writes one line for each option,
    in the order of [suboptions]: the keys of its keylist joined by dots,
    [ = ], its text.  Sections have no line of their own. *)
Theorem tofile_cpp_lines (t : odict) :
  tofile_cpp t = map (fun kl => cpp_line (fst kl) (snd kl)) (leaves t)
  /\ map fst (leaves t) = suboptions t.
Proof.
  split; [|apply leaves_suboptions].
  unfold tofile_cpp. rewrite write_tree_cpp_leaves. reflexivity.
Qed.















(** ** The writer of the convention [flat] *)

Lemma write_tree_py_flat (comment_char : ascii) (indentation : Z)
    (t : odict) :
  legal_tree comment_char t = true ->
  forall depth depth',
    map Str.lstrip (write_tree_py t depth indentation)
    = write_tree_py t depth' 0.
Proof.
  induction t as [|key s t IH|key sub t IHsub IH] using odict_ind;
    intros Hlegal depth depth'.
  - reflexivity.
  - rewrite legal_tree_cons in Hlegal.
    apply andb_prop in Hlegal. destruct Hlegal as [Hlegal Ht].
    apply andb_prop in Hlegal. destruct Hlegal as [Hk _].
    destruct (legal_key_inv _ _ Hk) as [c [k [E [Hc _]]]].
    rewrite !write_tree_py_str. unfold write_tree_leaf_line_py.
    simpl app. cbn [map]. rewrite (IH Ht depth depth').
    f_equal. rewrite lstrip_spaces. simpl Z.to_nat.
    rewrite Nat.mul_0_r. subst key. simpl. now rewrite Hc.
  - rewrite legal_tree_cons in Hlegal.
    apply andb_prop in Hlegal. destruct Hlegal as [Hlegal Ht].
    apply andb_prop in Hlegal. destruct Hlegal as [Hk Hsub].
    rewrite !write_tree_py_section. unfold write_tree_node_line_py.
    rewrite !map_app. rewrite (IH Ht depth depth').
    rewrite (IHsub Hsub (S depth) (S depth')).
    f_equal. f_equal. cbn [map]. f_equal.
    rewrite lstrip_spaces. simpl Z.to_nat.
    now rewrite Nat.mul_0_r.
Qed.

(** X29.  In the convention [flat] [tofile] writes the lines of the
    convention [py] without their indentation, whatever the indentation
    was: the depth of a section is not written. *)
Theorem tofile_flat_lines (comment_char : ascii) (indentation : Z)
    (t : odict) :
  legal_tree comment_char t = true ->
  tofile_flat t = map Str.lstrip (tofile t indentation).
Proof.
  intros Hlegal. unfold tofile_flat, tofile. symmetry.
  now apply (write_tree_py_flat comment_char).
Qed.

(** ** The indentation of a line, counted in white characters *)

(** A text is its white characters in front, then what [lstrip] leaves. *)
Lemma lstrip_cut (s : string) :
  exists w,
    s = (w ++ Str.lstrip s)%string /\ Str.all_space w = true
    /\ leading_width s = Z.of_nat (String.length w).
Proof.
  induction s as [|c s [w [H1 [H2 H3]]]].
  - exists EmptyString. repeat split.
  - cbn [Str.lstrip leading_width]. destruct (Str.is_space c) eqn:E.
    + exists (String c w). cbn [append Str.all_space String.length].
      rewrite E, H2, H3. split; [now rewrite <- H1|]. split; [reflexivity | lia].
    + exists EmptyString. repeat split.
Qed.

Lemma rstrip_cut (s : string) :
  exists w, s = (Str.rstrip s ++ w)%string /\ Str.all_space w = true.
Proof.
  induction s as [|c s [w [H1 H2]]].
  - exists EmptyString. split; reflexivity.
  - cbn [Str.rstrip]. destruct (Str.rstrip s) as [|a r] eqn:R.
    + cbn [append] in H1. subst w. destruct (Str.is_space c) eqn:E.
      * exists (String c s). cbn [append Str.all_space]. now rewrite E, H2.
      * exists s. split; [reflexivity | exact H2].
    + exists w. split; [|exact H2]. cbn [append]. f_equal. exact H1.
Qed.

Lemma lstrip_head (s : string) (c : ascii) (r : string) :
  Str.lstrip s = String c r -> Str.is_space c = false.
Proof.
  induction s as [|a s IH]; cbn [Str.lstrip]; [discriminate|].
  destruct (Str.is_space a) eqn:E; auto.
  intros H. inversion H; subst. exact E.
Qed.

Lemma strip_head (s : string) (c : ascii) (k : string) :
  Str.strip s = String c k -> Str.is_space c = false.
Proof.
  unfold Str.strip. intros H.
  destruct (rstrip_cut (Str.lstrip s)) as [w [H1 _]].
  rewrite H in H1. now apply lstrip_head in H1.
Qed.

Lemma strip_cut (s : string) :
  exists w w',
    s = (w ++ Str.strip s ++ w')%string /\ Str.all_space w = true.
Proof.
  destruct (lstrip_cut s) as [w [H1 [H2 _]]].
  destruct (rstrip_cut (Str.lstrip s)) as [w' [H3 _]].
  exists w, w'. split; [|exact H2]. unfold Str.strip.
  now rewrite <- H3.
Qed.

Lemma leading_width_white (w : string) (c : ascii) (r : string) :
  Str.all_space w = true -> Str.is_space c = false ->
  leading_width (w ++ String c r) = Z.of_nat (String.length w).
Proof.
  intros Hw Hc. induction w as [|a w IH].
  - cbn [append leading_width String.length]. now rewrite Hc.
  - cbn [Str.all_space] in Hw. apply andb_prop in Hw. destruct Hw as [Ha Hw].
    cbn [append leading_width String.length]. rewrite Ha, IH by assumption.
    lia.
Qed.

Lemma white_neq (a c : ascii) :
  Str.is_space a = true -> Str.is_space c = false -> c <> a.
Proof. intros Ha Hc E. subst. congruence. Qed.

Lemma find_from_white (w : string) (c : ascii) (k r : string) :
  Str.all_space w = true -> Str.is_space c = false ->
  forall i : Z,
    Str.find_from (String c k) (w ++ String c k ++ r) i
    = (i + Z.of_nat (String.length w))%Z.
Proof.
  intros Hw Hc. induction w as [|a w IH]; intros i.
  - cbn [append String.length]. cbn [Str.find_from].
    change (String c (k ++ r)) with (String c k ++ r)%string.
    rewrite prefix_app. cbn. lia.
  - cbn [Str.all_space] in Hw. apply andb_prop in Hw. destruct Hw as [Ha Hw].
    cbn [append String.length]. cbn [Str.find_from].
    rewrite prefix_head by (eapply white_neq; eauto).
    rewrite IH by assumption. lia.
Qed.

Lemma find_from_white_bracket (w : string) (c : ascii) (k r : string) :
  Str.all_space w = true -> Str.is_space c = false -> c <> "["%char ->
  forall i : Z,
    Str.find_from (String c k) (w ++ String "[" (String c k ++ r)) i
    = (i + Z.of_nat (String.length w) + 1)%Z.
Proof.
  intros Hw Hc Hb. induction w as [|a w IH]; intros i.
  - cbn [append String.length]. cbn [Str.find_from].
    rewrite prefix_head by assumption.
    change (String c (k ++ r)) with (String c k ++ r)%string.
    rewrite prefix_app. cbn. lia.
  - cbn [Str.all_space] in Hw. apply andb_prop in Hw. destruct Hw as [Ha Hw].
    cbn [append String.length]. cbn [Str.find_from].
    rewrite prefix_head by (eapply white_neq; eauto).
    rewrite IH by assumption. lia.
Qed.

Lemma split1_cut (c : ascii) (s : string) :
  Str.contains c s = true ->
  exists l r, Str.split1 c s = [l; r] /\ s = (l ++ String c r)%string.
Proof.
  induction s as [|a s IH]; cbn [Str.contains Str.split1]; [discriminate|].
  destruct (Ascii.eqb_spec a c) as [->|N].
  - intros _. exists EmptyString, s. split; reflexivity.
  - cbn [orb]. intros H. destruct (IH H) as [l [r [H1 H2]]].
    exists (String a l), r. rewrite H1. split; [reflexivity|].
    cbn [append]. now rewrite <- H2.
Qed.

Lemma leaf_width (text : string) (c : ascii) (k : string) :
  fst (key_value text) = String c k ->
  Str.find text (String c k) = leading_width text.
Proof.
  unfold key_value, Str.find. intros H.
  assert (Hc : Str.is_space c = false).
  { destruct (Str.contains "=" text); cbn [fst] in H;
      now apply strip_head in H. }
  assert (E : exists w r,
             text = (w ++ String c k ++ r)%string /\ Str.all_space w = true).
  { destruct (Str.contains "=" text) eqn:C; cbn [fst] in H.
    - destruct (split1_cut _ _ C) as [l [r [H1 H2]]].
      rewrite H1 in H. cbn [nth] in H.
      destruct (strip_cut l) as [w [w' [H3 H4]]]. rewrite H in H3.
      exists w, (w' ++ String "=" r)%string. split; [|exact H4].
      rewrite H2, H3. now rewrite !append_assoc.
    - destruct (strip_cut text) as [w [w' [H3 H4]]]. rewrite H in H3.
      exists w, w'. split; assumption. }
  destruct E as [w [r [E Hw]]]. rewrite E at 1.
  rewrite find_from_white by assumption.
  rewrite E. cbn [append]. rewrite leading_width_white by assumption. lia.
Qed.

Lemma drop_last_last (s : string) (b : ascii) :
  Str.last s = Some b -> s = (Str.drop_last s ++ String b EmptyString)%string.
Proof.
  induction s as [|y s IH]; [discriminate|].
  destruct s as [|z s].
  - cbn. intros H. now inversion H.
  - intros H. change (Str.last (String y (String z s)))
      with (Str.last (String z s)) in H.
    change (Str.drop_last (String y (String z s)))
      with (String y (Str.drop_last (String z s))).
    cbn [append]. f_equal. now apply IH.
Qed.

Lemma bracketed (s : string) (a b : ascii) :
  Str.first s = Some a -> Str.last s = Some b ->
  (2 <= String.length s)%nat ->
  s = String a (Str.inner s ++ String b EmptyString).
Proof.
  destruct s as [|x s]; [discriminate|].
  intros Ha Hb Hl. inversion Ha; subst x.
  destruct s as [|y s]; [simpl in Hl; lia|].
  cbn [Str.inner]. f_equal. apply drop_last_last. exact Hb.
Qed.

Lemma node_width (text : string) (c : ascii) (k : string) :
  is_tree_node text = true ->
  Str.inner (Str.strip text) = String c k ->
  Str.is_space c = false -> c <> "["%char ->
  (Str.find text (String c k) - 1)%Z = leading_width text.
Proof.
  unfold is_tree_node, Str.find. intros H Hk Hc Hb.
  apply andb_prop in H. destruct H as [H H3].
  apply andb_prop in H. destruct H as [H1 H2].
  apply Nat.ltb_lt in H1.
  destruct (Str.first (Str.strip text)) as [a|] eqn:Fa; [|discriminate].
  destruct (Str.last (Str.strip text)) as [b|] eqn:Fb; [|discriminate].
  apply Ascii.eqb_eq in H2, H3. subst a b.
  assert (E : Str.strip text
              = String "[" (String c k ++ String "]" EmptyString)).
  { rewrite <- Hk. apply bracketed; auto. lia. }
  destruct (strip_cut text) as [w [w' [H4 Hw]]]. rewrite E in H4.
  assert (E' : text
               = (w ++ String "[" (String c k ++ String "]" w'))%string).
  { rewrite H4 at 1. f_equal. cbn [append]. f_equal. f_equal.
    now rewrite append_assoc. }
  rewrite E' at 1. rewrite find_from_white_bracket by assumption.
  rewrite E'. rewrite leading_width_white by (auto). lia.
Qed.

Lemma line_width_leading (text : string) :
  key_in_front text = true -> line_width text = leading_width text.
Proof.
  unfold key_in_front, line_width, line_key.
  destruct (is_tree_node text) eqn:N.
  - destruct (Str.inner (Str.strip text)) as [|c k] eqn:K; [discriminate|].
    cbn [Str.first andb]. intros H. apply andb_prop in H. destruct H as [H1 H2].
    apply negb_true_iff in H1, H2.
    apply node_width; auto. intros ->. discriminate.
  - destruct (fst (key_value text)) as [|c k] eqn:K; [discriminate|].
    intros _. now apply leaf_width.
Qed.

Lemma leading_width_text (comment_char : ascii) (line : string) :
  String.eqb (hd EmptyString (Str.split comment_char line)) EmptyString
  || Str.isspace (hd EmptyString (Str.split comment_char line)) = false ->
  leading_width (hd EmptyString (Str.split comment_char line))
  = leading_width line.
Proof.
  induction line as [|a s IH]; [reflexivity|].
  cbn [Str.split]. destruct (Ascii.eqb a comment_char); [discriminate|].
  destruct (Str.split comment_char s) as [|h tl].
  - cbn [hd leading_width]. cbn. destruct (Str.is_space a); [discriminate|auto].
  - cbn [hd] in *. cbn [leading_width].
    destruct (Str.is_space a) eqn:E; [|reflexivity].
    intros H. rewrite IH; [reflexivity|].
    cbn in H. rewrite E in H. cbn in H.
    destruct h as [|x h]; [discriminate|]. exact H.
Qed.

(** C8, as the code has it.  With an indentation unit that is not zero, a
    line that is blank once its comment is cut is passed over, whatever
    white space it holds.  A line that is not blank, and whose key is not
    empty and starts with a character that is not white and, in a header, is
    not the opening bracket, raises [IndentationError] exactly when the
    number of white characters in front of it is not a multiple of the unit,
    or that number over the unit is more than the length of the current
    keylist.  Otherwise the first keys of the keylist, as many as the depth,
    are kept: a header returns them with its key added, and a leaf is handed
    to [set] under them, with [update_tree], and returns them. *)
Theorem indentation_of_a_line (line : string) (keylist : list string)
    (comment_char : ascii) (indentation : Z) (t : odict) :
  indentation <> 0%Z ->
  (String.eqb (hd EmptyString (Str.split comment_char line)) EmptyString
   || Str.isspace (hd EmptyString (Str.split comment_char line)) = true ->
   read_line_py line keylist comment_char indentation t
   = (Return keylist, t))
  /\ (String.eqb (hd EmptyString (Str.split comment_char line)) EmptyString
      || Str.isspace (hd EmptyString (Str.split comment_char line)) = false ->
      key_in_front (hd EmptyString (Str.split comment_char line)) = true ->
      (fst (read_line_py line keylist comment_char indentation t)
       = Raise IndentationError
       <-> (~ (indentation | leading_width line)%Z
            \/ (Z.of_nat (List.length keylist)
                < leading_width line / indentation)%Z))
      /\ (fst (read_line_py line keylist comment_char indentation t)
          <> Raise IndentationError ->
          read_line_py line keylist comment_char indentation t
          = if is_tree_node (hd EmptyString (Str.split comment_char line))
            then
              (Return
                 (slice_to keylist (leading_width line / indentation)
                  ++ [line_key (hd EmptyString (Str.split comment_char line))])%list,
               t)
            else
              (set
                 (slice_to keylist (leading_width line / indentation)
                  ++ [line_key (hd EmptyString (Str.split comment_char line))])%list
                 (snd (key_value (hd EmptyString (Str.split comment_char line))))
                 true ;;;
               ret (slice_to keylist (leading_width line / indentation))) t)).
Proof.
  intros Hind. split.
  - intros Hb. unfold read_line_py. now rewrite Hb.
  - intros Hb Hk.
    pose proof (read_line_py_indentation line keylist comment_char
                  indentation t) as R.
    pose proof (leading_width_text comment_char line Hb) as W.
    pose proof (line_width_leading _ Hk) as L.
    rewrite L, W in R.
    destruct (update_keylist_spec keylist (leading_width line) indentation
                Hind) as [U1 U2].
    assert (I : fst (read_line_py line keylist comment_char indentation t)
                = Raise IndentationError
                <-> (~ (indentation | leading_width line)%Z
                     \/ (Z.of_nat (List.length keylist)
                         < leading_width line / indentation)%Z)).
    { rewrite R. rewrite <- U1. split; [now intros [_ H] | now split]. }
    split; [exact I|].
    intros H.
    assert (U : update_keylist keylist (leading_width line) indentation
                = Return (slice_to keylist (leading_width line / indentation))).
    { apply U2. intros E. apply H. apply R. now split. }
    clear R I H U1 U2.
    unfold read_line_py. rewrite Hb.
    unfold line_width, line_key in *.
    set (text := hd EmptyString (Str.split comment_char line)) in *.
    destruct (is_tree_node text).
    + unfold reading, extract_tree_node_py.
      replace (Str.find text (Str.inner (Str.strip text)) - 1)%Z
        with (leading_width line) by congruence.
      now rewrite U.
    + unfold extract_tree_leaf_py.
      destruct (key_value text) as [key v]. cbn [fst snd] in *.
      replace (Str.find text key) with (leading_width line) by congruence.
      now rewrite U.
Qed.

(** * Properties of what goes through the conversions *)

Section Host.

Variable host : Type.
Variable host_conversion : string -> value -> result host.

(** ** Descending a keylist *)

Lemma get_at_keylist (keylist : list string) (to_type : string) :
  forall (t : odict) (v : value),
    keylist <> [] ->
    at_keylist keylist (TreeConfigParser t) = Some v ->
    get host_conversion keylist to_type t
    = string_conversion host_conversion v to_type.
Proof.
  induction keylist as [|key rest IH]; intros t v Hne H; [congruence|].
  simpl in H. destruct (lookup key t) as [x|] eqn:L; [|discriminate].
  destruct rest as [|key' rest'].
  - simpl in *. rewrite L. now inversion H.
  - change (get host_conversion (key :: key' :: rest') to_type t)
      with (match child key t with
            | Raise e => Raise e
            | Return sub => get host_conversion (key' :: rest') to_type sub
            end).
    unfold child. rewrite L. destruct x as [s|sub].
    + exfalso. eapply at_keylist_str; [|exact H]. discriminate.
    + apply IH; [discriminate | exact H].
Qed.

Lemma get_cons2 (key key' : string) (rest : list string) (to_type : string)
    (t : odict) :
  get host_conversion (key :: key' :: rest) to_type t
  = match child key t with
    | Raise e => Raise e
    | Return sub => get host_conversion (key' :: rest) to_type sub
    end.
Proof. reflexivity. Qed.

(** ** The claims on [get] and [set] *)

(** C7.  After [set(keylist, value, update_tree)] has returned, with
    [update_tree] true (or false), [get(keylist)] with the type [string]
    returns the very text that was assigned. *)
Theorem get_after_set (keylist : list string) (v : string) (u : bool) :
  forall t t' : odict,
    set keylist v u t = (Return tt, t') ->
    get host_conversion keylist "string" t' = Return (PyValue (Str v)).
Proof.
  induction keylist as [|key rest IH]; intros t t' H.
  - discriminate.
  - destruct rest as [|key' rest'].
    + simpl in H. inversion H; subst. simpl.
      now rewrite lookup_assign_same.
    + rewrite set_cons2 in H. rewrite get_cons2. run.
      set (t1 := if u && negb (mem key t)
                 then assign key (TreeConfigParser []) t else t) in *.
      assert (E : (if u && negb (mem key t)
                   then (Return tt, assign key (TreeConfigParser []) t)
                   else (Return tt, t)) = (Return tt, t1)).
      { unfold t1. now destruct (u && negb (mem key t)). }
      rewrite E in H. clear E.
      destruct (lookup key t1) as [[s|sub]|]; try discriminate.
      destruct (set (key' :: rest') v u sub) as [r sub'] eqn:S.
      inversion H; subst. rewrite lookup_assign_same.
      eapply IH. exact S.
Qed.

(** C1, as the code has it.  When the keylist leads to a subsection, [get]
    with the type [string] returns normally and hands back the subsection
    itself; with the type [bool] or [log_level] it raises
    [AttributeError]. *)
Theorem get_of_section (keylist : list string) (t sub : odict) :
  keylist <> [] ->
  at_keylist keylist (TreeConfigParser t) = Some (TreeConfigParser sub) ->
  get host_conversion keylist "string" t
  = Return (PyValue (TreeConfigParser sub))
  /\ get host_conversion keylist "bool" t = Raise AttributeError
  /\ get host_conversion keylist "log_level" t = Raise AttributeError.
Proof.
  intros Hne H.
  repeat split;
    rewrite get_at_keylist with (v := TreeConfigParser sub); auto.
Qed.

(** ** The conversion to [bool] *)

Lemma string_conversion_bool (v : value) :
  string_conversion host_conversion v "bool" = string_to_bool v.
Proof. reflexivity. Qed.

Lemma string_to_bool_true (s : string) :
  In (Str.lower s) ["true"; "yes"; "on"; "1"] ->
  string_conversion host_conversion (Str s) "bool" = Return (PyBool true).
Proof.
  intros H. rewrite string_conversion_bool. unfold string_to_bool.
  assert (E : existsb (String.eqb (Str.lower s)) ["true"; "yes"; "on"; "1"]
              = true).
  { apply existsb_exists. exists (Str.lower s). split; auto.
    apply String.eqb_refl. }
  now rewrite E.
Qed.

Lemma string_to_bool_false (s : string) :
  In (Str.lower s) ["false"; "no"; "off"; "0"] ->
  string_conversion host_conversion (Str s) "bool" = Return (PyBool false).
Proof.
  intros H. rewrite string_conversion_bool. unfold string_to_bool.
  assert (E : existsb (String.eqb (Str.lower s)) ["false"; "no"; "off"; "0"]
              = true).
  { apply existsb_exists. exists (Str.lower s). split; auto.
    apply String.eqb_refl. }
  rewrite E.
  destruct (existsb (String.eqb (Str.lower s)) ["true"; "yes"; "on"; "1"])
    eqn:E'; auto.
  apply existsb_exists in E'. destruct E' as [x [Hx Hx']].
  apply String.eqb_eq in Hx'. subst x. exfalso.
  simpl in H, Hx. intuition congruence.
Qed.

Lemma string_to_bool_other (s : string) :
  ~ In (Str.lower s) ["true"; "yes"; "on"; "1"; "false"; "no"; "off"; "0"] ->
  string_conversion host_conversion (Str s) "bool"
  = Return (PyException
              (ValueError (quoted s ++ " cannot be converted to bool"))).
Proof.
  intros H. rewrite string_conversion_bool. unfold string_to_bool.
  destruct (existsb (String.eqb (Str.lower s)) ["true"; "yes"; "on"; "1"])
    eqn:E1.
  { apply existsb_exists in E1. destruct E1 as [x [Hx Hx']].
    apply String.eqb_eq in Hx'. subst x. exfalso. apply H.
    simpl in *. tauto. }
  destruct (existsb (String.eqb (Str.lower s)) ["false"; "no"; "off"; "0"])
    eqn:E2; auto.
  apply existsb_exists in E2. destruct E2 as [x [Hx Hx']].
  apply String.eqb_eq in Hx'. subst x. exfalso. apply H.
  simpl in *. tauto.
Qed.

(** C3.  The text [maybe] is neither in the true set nor in the false set,
    and the conversion to [bool] returns normally: what it returns is the
    [ValueError] object, which it builds and does not raise. *)
Theorem string_to_bool_returns_the_error :
  string_conversion host_conversion (Str "maybe") "bool"
  = Return (PyException
              (ValueError (quoted "maybe" ++ " cannot be converted to bool"))).
Proof. reflexivity. Qed.

(** ** The empty keylist *)

(** C9.  [get] and [set] with the empty keylist raise [IndexError], and
    [set] leaves the tree as it was; [options], [subconfig] and [clone]
    with the empty keylist or without keylist answer for the root: its
    keys, the node itself, a copy of it. *)
Theorem empty_keylist (t : odict) :
  (forall to_type, get host_conversion [] to_type t = Raise IndexError)
  /\ (forall v u, set [] v u t = (Raise IndexError, t))
  /\ options (Some []) t = Return (keys t)
  /\ options None t = Return (keys t)
  /\ subconfig (Some []) t = Return t
  /\ subconfig None t = Return t
  /\ (wf t -> clone (Some []) t = Return t /\ clone None t = Return t).
Proof.
  repeat split; try reflexivity;
    unfold clone; simpl; now rewrite clone_of_wf.
Qed.

(** ** The budget of the cross-references *)

Lemma solve_references_string_succ (v : string) (max_rec : nat)
    (reference_char : ascii) :
  solve_references_string host_conversion v (S max_rec) reference_char
  = if negb (has_reference v reference_char) then ret v
    else solve_each
           (fun keylist =>
              solve_references_keylist host_conversion keylist max_rec
                reference_char)
           reference_char (extract_references v reference_char) v.
Proof. reflexivity. Qed.

Lemma solve_keylist_with_mono (f g : string -> M string)
    (keylist : list string) (t t' : odict) (r : string) :
  (forall s t r t', f s t = (Return r, t') -> g s t = (Return r, t')) ->
  solve_keylist_with host_conversion f keylist t = (Return r, t') ->
  solve_keylist_with host_conversion g keylist t = (Return r, t').
Proof.
  intros Hfg. unfold solve_keylist_with. run.
  destruct (get host_conversion keylist "string" t) as [[[v|?]| | | |]|];
    try discriminate.
  destruct (f v t) as [[v'|e] t1] eqn:F; [|discriminate].
  rewrite (Hfg _ _ _ _ F). auto.
Qed.

Lemma solve_references_string_mono (reference_char : ascii) (m : nat) :
  forall m' v t r t',
    m <= m' ->
    solve_references_string host_conversion v m reference_char t
    = (Return r, t') ->
    solve_references_string host_conversion v m' reference_char t
    = (Return r, t').
Proof.
  induction m as [|m IH]; intros m' v t r t' Hle H.
  - simpl in H. destruct m' as [|m']; [exact H|].
    simpl. destruct (has_reference v reference_char); simpl in *;
      [discriminate | exact H].
  - destruct m' as [|m']; [lia|].
    simpl in *. destruct (has_reference v reference_char); simpl in *;
      [|exact H].
    eapply solve_each_mono; [|exact H].
    intros keylist t0 r0 t0'. apply solve_keylist_with_mono.
    intros s t1 r1 t1'. apply IH. lia.
Qed.

(** C2, as the code has it.  The budget is handed down by value.  Every
    option of the outer enumeration is resolved with the same budget, the
    number of options less one; every reference of a value is resolved
    with the budget of that value less one, however many references were
    resolved before it; a value with a reference that is met with budget
    zero raises [CrossReferenceError] and leaves the tree as it is.  So a
    resolution that returns with some budget returns the same with any
    larger one. *)
Theorem budget_per_nesting_level (reference_char : ascii) :
  (forall t,
      solve_references host_conversion reference_char t
      = for_each
          (fun keylist =>
             solve_references_keylist host_conversion keylist
               (List.length (suboptions t) - 1) reference_char ;;; ret tt)
          (suboptions t) t)
  /\ (forall v max_rec,
         has_reference v reference_char = true ->
         solve_references_string host_conversion v (S max_rec) reference_char
         = solve_each
             (fun keylist =>
                solve_references_keylist host_conversion keylist max_rec
                  reference_char)
             reference_char (extract_references v reference_char) v)
  /\ (forall v t,
         has_reference v reference_char = true ->
         solve_references_string host_conversion v 0 reference_char t
         = (Raise CrossReferenceError, t))
  /\ (forall v m m' t r t',
         m <= m' ->
         solve_references_string host_conversion v m reference_char t
         = (Return r, t') ->
         solve_references_string host_conversion v m' reference_char t
         = (Return r, t')).
Proof.
  repeat split.
  - intros v max_rec H. rewrite solve_references_string_succ.
    now rewrite H.
  - intros v t H. simpl. now rewrite H.
  - intros v m m' t r t'. apply solve_references_string_mono.
Qed.

(** ** A tree without references goes through the resolution unchanged *)

Lemma solve_references_keylist_plain (reference_char : ascii)
    (keylist : list string) (max_rec : nat) (t : odict) (v : string) :
  keylist <> [] ->
  at_keylist keylist (TreeConfigParser t) = Some (Str v) ->
  has_reference v reference_char = false ->
  solve_references_keylist host_conversion keylist max_rec reference_char t
  = (Return v, t).
Proof.
  intros Hne H Hv. unfold solve_references_keylist, solve_keylist_with.
  run. rewrite get_at_keylist with (v := Str v) by assumption.
  change (string_conversion host_conversion (Str v) "string")
    with (Return (@PyValue host (Str v))).
  assert (E : solve_references_string host_conversion v max_rec reference_char t
              = (Return v, t)).
  { destruct max_rec; simpl; now rewrite Hv. }
  cbv beta iota. rewrite E, set_same by assumption. reflexivity.
Qed.

Lemma solve_references_plain (reference_char : ascii) (t : odict) :
  wf t -> plain_tree reference_char t = true ->
  solve_references host_conversion reference_char t = (Return tt, t).
Proof.
  intros Hwf Hplain. unfold solve_references.
  assert (H : forall l max_rec,
             (forall keylist, In keylist l -> In keylist (suboptions t)) ->
             for_each
               (fun keylist =>
                  solve_references_keylist host_conversion keylist max_rec
                    reference_char ;;;
                  ret tt) l t
             = (Return tt, t)).
  { induction l as [|keylist l IH]; intros max_rec Hl; [reflexivity|].
    assert (Hin : In keylist (suboptions t)) by (apply Hl; now left).
    destruct (suboptions_head t keylist Hin) as [k [r [E _]]].
    apply suboptions_complete in Hin; auto. destruct Hin as [v Hv].
    cbn [for_each]. run.
    rewrite solve_references_keylist_plain with (v := v); auto.
    - apply IH. intros kl Hkl. apply Hl. now right.
    - subst keylist. discriminate.
    - eapply plain_at_keylist; eauto. }
  apply H. auto.
Qed.

(** ** Writing, then reading *)


(** ** [get], further *)



(** ** The conversions, further *)

(** X15.  On a text the conversion to [bool] never raises; it returns true
    exactly on the four true words and false exactly on the four false
    words, whatever their case. *)
Theorem string_to_bool_words (s : string) :
  (string_conversion host_conversion (Str s) "bool" = Return (PyBool true)
   <-> In (Str.lower s) ["true"; "yes"; "on"; "1"])
  /\ (string_conversion host_conversion (Str s) "bool" = Return (PyBool false)
      <-> In (Str.lower s) ["false"; "no"; "off"; "0"])
  /\ (forall e,
         string_conversion host_conversion (Str s) "bool" <> Raise e).
Proof.
  destruct (in_dec string_dec (Str.lower s) ["true"; "yes"; "on"; "1"])
    as [Ht|Ht].
  { rewrite (string_to_bool_true s Ht). repeat split; auto; try discriminate.
    intros H. exfalso. simpl in Ht, H. intuition congruence. }
  destruct (in_dec string_dec (Str.lower s) ["false"; "no"; "off"; "0"])
    as [Hf|Hf].
  { rewrite (string_to_bool_false s Hf). repeat split; auto;
      try discriminate. intros H. contradiction. }
  rewrite string_to_bool_other.
  - repeat split; try discriminate; intros H; contradiction.
  - intros H. simpl in H, Ht, Hf. intuition.
Qed.

Lemma string_conversion_log_level (v : value) :
  string_conversion host_conversion v "log_level" = string_to_log_level v.
Proof. reflexivity. Qed.

Lemma level_of_in (name : string) (l : list (string * Z)) :
  (forall n, level_of name l = Some n -> In (name, n) l)
  /\ (level_of name l = None -> ~ In name (map fst l)).
Proof.
  induction l as [|[k m] l [IH1 IH2]]; simpl.
  - split; [discriminate | tauto].
  - destruct (String.eqb_spec k name) as [Ek|Nk].
    + subst k. split; [|discriminate].
      intros n H. inversion H; subst. now left.
    + split.
      * intros n H. right. now apply IH1.
      * intros H [E|Hin]; [contradiction | now apply IH2].
Qed.

(** X16.  On a text the conversion to [log_level] returns the level of
    [logging] that the text names, whatever its case, and raises
    [ValueError] when the text names none of the five levels; it never
    returns an exception. *)
Theorem string_to_log_level_names (s : string) :
  (forall n,
      string_conversion host_conversion (Str s) "log_level"
      = Return (PyInt n) ->
      In (Str.lower s, n)
        [("debug", 10%Z); ("info", 20%Z); ("warning", 30%Z);
         ("error", 40%Z); ("critical", 50%Z)])
  /\ (In (Str.lower s) ["debug"; "info"; "warning"; "error"; "critical"] ->
      exists n,
        string_conversion host_conversion (Str s) "log_level"
        = Return (PyInt n))
  /\ (~ In (Str.lower s) ["debug"; "info"; "warning"; "error"; "critical"] ->
      string_conversion host_conversion (Str s) "log_level"
      = Raise (ValueError
                 (quoted s ++ " cannot be converted to logging level"))).
Proof.
  rewrite string_conversion_log_level. unfold string_to_log_level.
  destruct (level_of_in (Str.lower s) levels) as [H1 H2].
  destruct (level_of (Str.lower s) levels) as [m|] eqn:E.
  - split; [|split].
    + intros n H. inversion H; subst. now apply H1.
    + intros _. exists m. reflexivity.
    + intros H. exfalso. apply H.
      specialize (H1 m eq_refl).
      apply (in_map fst) in H1. exact H1.
  - split; [|split].
    + intros n H. discriminate.
    + intros H. exfalso. now apply H2.
    + intros _. reflexivity.
Qed.

Lemma conversion_of_unknown (to_type : string) :
  ~ In to_type
      ["string"; "path"; "bool"; "int"; "float"; "stringlist"; "log_level";
       "np_fromfile"; "datetime"] ->
  conversion_of to_type (conversions host_conversion) = None.
Proof.
  intros H. unfold conversions. cbn [conversion_of].
  repeat match goal with
         | |- context [String.eqb ?k to_type] =>
             destruct (String.eqb_spec k to_type) as [E|_];
             [exfalso; apply H; rewrite <- E; simpl; tauto|]
         end.
  reflexivity.
Qed.

(** X17.  With a type that is not one of the nine registered names,
    [string_conversion] raises [TypeError], and so does [get] on every
    keylist that leads to something. *)
Theorem unknown_conversion (to_type : string) :
  ~ In to_type
      ["string"; "path"; "bool"; "int"; "float"; "stringlist"; "log_level";
       "np_fromfile"; "datetime"] ->
  (forall v, string_conversion host_conversion v to_type = Raise TypeError)
  /\ (forall keylist t v,
         keylist <> [] ->
         at_keylist keylist (TreeConfigParser t) = Some v ->
         get host_conversion keylist to_type t = Raise TypeError).
Proof.
  intros H.
  assert (E : forall v,
             string_conversion host_conversion v to_type = Raise TypeError).
  { intros v. unfold string_conversion.
    now rewrite conversion_of_unknown. }
  split; [exact E|].
  intros keylist t v Hne A.
  rewrite (get_at_keylist keylist to_type t v Hne A). apply E.
Qed.

(** ** Cross-references, further *)

(** X19.  The resolution leaves a tree without references as it is, and
    returns. *)
Theorem resolution_without_references (reference_char : ascii) (t : odict) :
  wf t -> plain_tree reference_char t = true ->
  solve_references host_conversion reference_char t = (Return tt, t).
Proof.
  intros Hwf Hplain. now apply solve_references_plain.
Qed.

Lemma has_reference_token (reference_char : ascii) (key : string) :
  key <> EmptyString ->
  has_reference (token reference_char key) reference_char = true.
Proof.
  intros Hne. unfold has_reference, token.
  cbn [Str.contains]. rewrite Ascii.eqb_refl. simpl orb.
  rewrite andb_true_r. destruct key as [|c key]; [congruence|].
  simpl String.length. rewrite string_length_app. simpl.
  apply Nat.ltb_lt. lia.
Qed.

Lemma extract_references_token (reference_char : ascii) (key : string) :
  key <> EmptyString -> Str.contains reference_char key = false ->
  extract_references (token reference_char key) reference_char = [key].
Proof.
  intros Hne Hc. unfold extract_references, token.
  cbn [Str.split]. rewrite Ascii.eqb_refl.
  rewrite split_at by assumption. cbn [Str.split references_of].
  destruct key as [|c key]; [congruence|]. reflexivity.
Qed.

(** X20.  An option whose text is a reference to itself is never resolved:
    whatever the budget, its resolution raises [CrossReferenceError] and
    leaves the tree as it is. *)
Theorem self_reference (reference_char : ascii) (key : string) (t : odict) :
  key <> EmptyString ->
  Str.contains reference_char key = false ->
  Str.contains "." key = false ->
  lookup key t = Some (Str (token reference_char key)) ->
  forall max_rec,
    solve_references_keylist host_conversion [key] max_rec reference_char t
    = (Raise CrossReferenceError, t).
Proof.
  intros Hne Hrc Hdot L max_rec.
  induction max_rec as [|m IH];
    unfold solve_references_keylist, solve_keylist_with; run;
    cbn [get]; rewrite L;
    change (string_conversion host_conversion
              (Str (token reference_char key)) "string")
      with (Return (@PyValue host (Str (token reference_char key))));
    cbv beta iota.
  - simpl solve_references_string.
    rewrite has_reference_token by assumption. reflexivity.
  - rewrite solve_references_string_succ.
    rewrite has_reference_token by assumption. cbn [negb].
    rewrite extract_references_token by assumption.
    cbn [solve_each]. run. rewrite split_absent by assumption.
    rewrite IH. reflexivity.
Qed.

Lemma solve_each_plain (reference_char : ascii) (max_rec : nat) (t : odict)
    (reflist : list string) :
  (forall ref,
      In ref reflist ->
      exists w,
        at_keylist (Str.split "." ref) (TreeConfigParser t) = Some (Str w)
        /\ has_reference w reference_char = false) ->
  forall v,
    solve_each
      (fun keylist =>
         solve_references_keylist host_conversion keylist max_rec
           reference_char)
      reference_char reflist v t
    = (Return
         (fold_left
            (fun acc ref =>
               Str.replace acc (token reference_char ref) (referenced t ref))
            reflist v),
       t).
Proof.
  induction reflist as [|ref reflist IH]; intros H v; [reflexivity|].
  destruct (H ref (or_introl eq_refl)) as [w [A Hw]].
  cbn [solve_each fold_left]. run.
  rewrite solve_references_keylist_plain with (v := w); auto.
  - unfold referenced at 2. rewrite A.
    apply IH. intros r Hr. apply H. now right.
  - apply split_not_nil.
Qed.

(** X21.  When every reference of a value names an option whose text holds
    no reference, a budget of one resolves the value: each reference is
    replaced by the text it names, and the tree stays as it is. *)
Theorem references_to_plain_options (reference_char : ascii) (v : string)
    (max_rec : nat) (t : odict) :
  has_reference v reference_char = true ->
  (forall ref,
      In ref (extract_references v reference_char) ->
      exists w,
        at_keylist (Str.split "." ref) (TreeConfigParser t) = Some (Str w)
        /\ has_reference w reference_char = false) ->
  solve_references_string host_conversion v (S max_rec) reference_char t
  = (Return
       (fold_left
          (fun acc ref =>
             Str.replace acc (token reference_char ref) (referenced t ref))
          (extract_references v reference_char) v),
     t).
Proof.
  intros Hv H. rewrite solve_references_string_succ, Hv. cbn [negb].
  now apply solve_each_plain.
Qed.

(** ** Distinct keys, kept by [read_file] *)

Lemma wf_solve_keylist_with (solve : string -> M string)
    (keylist : list string) (t : odict) :
  (forall s t1, wf t1 -> wf (snd (solve s t1))) ->
  wf t -> wf (snd (solve_keylist_with host_conversion solve keylist t)).
Proof.
  intros Hsolve Hwf. unfold solve_keylist_with.
  apply wf_bind; [exact Hwf|].
  intros got t1 H1. destruct got as [[v|?]| | | |]; try exact H1.
  apply wf_bind; [now apply Hsolve|].
  intros v' t2 H2. apply wf_bind; [now apply wf_set_snd|].
  intros _ t3 H3. exact H3.
Qed.

Lemma wf_solve_each (solve_keylist : list string -> M string)
    (reference_char : ascii) (reflist : list string) :
  (forall keylist t1, wf t1 -> wf (snd (solve_keylist keylist t1))) ->
  forall v t, wf t ->
    wf (snd (solve_each solve_keylist reference_char reflist v t)).
Proof.
  intros Hsolve. induction reflist as [|ref reflist IH]; intros v t Hwf;
    [exact Hwf|].
  cbn [solve_each]. apply wf_bind; [now apply Hsolve|].
  intros sub t1 H1. now apply IH.
Qed.

Lemma wf_solve_references_string (reference_char : ascii) (max_rec : nat) :
  forall v t, wf t ->
    wf (snd (solve_references_string host_conversion v max_rec
               reference_char t)).
Proof.
  induction max_rec as [|m IH]; intros v t Hwf.
  - simpl. destruct (has_reference v reference_char); exact Hwf.
  - rewrite solve_references_string_succ.
    destruct (has_reference v reference_char); simpl negb; cbv iota;
      [|exact Hwf].
    apply wf_solve_each; auto.
    intros keylist t1 H1. unfold solve_references_keylist.
    now apply wf_solve_keylist_with.
Qed.

Lemma wf_solve_references (reference_char : ascii) (t : odict) :
  wf t -> wf (snd (solve_references host_conversion reference_char t)).
Proof.
  intros Hwf. unfold solve_references.
  generalize (List.length (suboptions t) - 1) as max_rec.
  generalize (suboptions t) as keylistlist. revert t Hwf.
  intros t Hwf keylistlist. revert t Hwf.
  induction keylistlist as [|keylist l IH]; intros t Hwf max_rec;
    [exact Hwf|].
  cbn [for_each]. apply wf_bind; [|intros _ t1 H1; now apply IH].
  apply wf_bind; [|intros _ t1 H1; exact H1].
  unfold solve_references_keylist. apply wf_solve_keylist_with; auto.
  intros s t1 H1. now apply wf_solve_references_string.
Qed.

(** X26.  Whatever the lines are, and whether it returns or raises,
    [read_file] leaves a tree whose dictionaries have distinct keys when it
    found one, in the convention [py] and in the convention [cpp]. *)
Theorem read_file_keeps_keys_distinct (lines : list string)
    (comment_char reference_char : ascii) (indentation : Z) (t : odict) :
  wf t ->
  wf (snd (read_file host_conversion lines comment_char reference_char
             indentation t))
  /\ wf (snd (read_file_cpp host_conversion lines comment_char
                reference_char t)).
Proof.
  intros Hwf. split.
  - unfold read_file. apply wf_bind; [now apply wf_read_lines_py|].
    intros _ t1 H1. now apply wf_solve_references.
  - unfold read_file_cpp. apply wf_bind; [now apply wf_read_lines_cpp|].
    intros _ t1 H1. now apply wf_solve_references.
Qed.

(** ** Writing, then reading, in the convention [cpp] *)


End Host.

(** * The statements at work on the trees of the documentation *)

Ltac wf_tree :=
  unfold wf; simpl; repeat split; repeat constructor; simpl;
  intuition discriminate.

(** C7 at work: [section1.subsection11.option1] set in an empty tree. *)
Lemma get_after_set_witness :
  get no_host ["section1"; "subsection11"; "option1"] "string"
    (snd (set ["section1"; "subsection11"; "option1"] "1" true []))
  = Return (PyValue (Str "1")).
Proof.
  apply (get_after_set Empty_set no_host
           ["section1"; "subsection11"; "option1"] "1" true []).
  reflexivity.
Defined.

(** C10 at work: [option1] holds a text and is asked to hold [option2]. *)
Lemma set_through_option_witness :
  set (["option1"] ++ ["option2"]) "2" true [("option1", Str "1")]
  = (Raise AttributeError, [("option1", Str "1")]).
Proof.
  apply (set_through_option ["option1"] ["option2"] "1" "2"
           [("option1", Str "1")]).
  - discriminate.
  - discriminate.
  - reflexivity.
Defined.

(** C1 refuted: [section1] is a subsection, and [get] returns; it raises
    nothing. *)
Lemma get_of_section_returns :
  get no_host ["section1"] "string"
    [("section1", TreeConfigParser [("option1", Str "1")])]
  = Return (PyValue (TreeConfigParser [("option1", Str "1")]))
  /\ ~ (exists e,
           get no_host ["section1"] "string"
             [("section1", TreeConfigParser [("option1", Str "1")])]
           = Raise e).
Proof.
  split; [reflexivity|]. intros [e H]. discriminate.
Qed.

(** C1, amended, at work on the same tree. *)
Lemma get_of_section_witness :
  get no_host ["section1"] "string"
    [("section1", TreeConfigParser [("option1", Str "1")])]
  = Return (PyValue (TreeConfigParser [("option1", Str "1")]))
  /\ get no_host ["section1"] "bool"
       [("section1", TreeConfigParser [("option1", Str "1")])]
     = Raise AttributeError
  /\ get no_host ["section1"] "log_level"
       [("section1", TreeConfigParser [("option1", Str "1")])]
     = Raise AttributeError.
Proof.
  apply (get_of_section Empty_set no_host ["section1"]
           [("section1", TreeConfigParser [("option1", Str "1")])]
           [("option1", Str "1")]).
  - discriminate.
  - reflexivity.
Defined.

(** C9 at work. *)
Lemma empty_keylist_witness :
  wf [("option1", Str "1")]
  /\ clone (Some []) [("option1", Str "1")] = Return [("option1", Str "1")]
  /\ clone None [("option1", Str "1")] = Return [("option1", Str "1")].
Proof.
  assert (H : wf [("option1", Str "1")]) by wf_tree.
  split; [exact H|].
  destruct (empty_keylist Empty_set no_host [("option1", Str "1")])
    as [_ [_ [_ [_ [_ [_ Hclone]]]]]].
  exact (Hclone H).
Defined.

(** C8 refuted.  The unit is four and one section is open.  The header
    [[  ]] stands behind four white characters, a multiple of the unit and a
    depth of one, and raises [IndentationError]: its key, two spaces, is
    found at index zero.  The leaf [= v] stands behind three white
    characters and is read, under the empty key at the root: its key, the
    empty text, is found at index zero as well. *)
Lemma indentation_is_measured_at_the_key :
  ((4 | leading_width "    [  ]")%Z
   /\ (leading_width "    [  ]" / 4 <= Z.of_nat (List.length ["a"]))%Z
   /\ read_line_py "    [  ]" ["a"] "#" 4 [] = (Raise IndentationError, []))
  /\ (~ (4 | leading_width "   = v")%Z
      /\ read_line_py "   = v" ["a"] "#" 4 []
         = (Return [], [(EmptyString, Str "v")]))
  /\ ~ (forall line keylist comment_char indentation t,
           indentation <> 0%Z ->
           fst (read_line_py line keylist comment_char indentation t)
           = Raise IndentationError
           <-> (~ (indentation | leading_width line)%Z
                \/ (Z.of_nat (List.length keylist)
                    < leading_width line / indentation)%Z)).
Proof.
  split; [|split].
  - split; [exists 1%Z; reflexivity|]. split; [vm_compute; discriminate|].
    reflexivity.
  - split; [|reflexivity]. change (leading_width "   = v") with 3%Z.
    intros [z Hz]. lia.
  - intros H.
    destruct (H "    [  ]" ["a"] "#"%char 4%Z []) as [H1 _]; [lia|].
    destruct (H1 eq_refl) as [N|N].
    + apply N. exists 1%Z. reflexivity.
    + vm_compute in N. discriminate.
Qed.

(** C8, amended, at work: six white characters with a unit of four, then
    four, then a line that holds a comment only. *)
Lemma indentation_of_a_line_witness :
  fst (read_line_py "      option2 = 2" ["section1"] "#" 4 [])
  = Raise IndentationError
  /\ read_line_py "    option2 = 2" ["section1"] "#" 4 []
     = (Return ["section1"],
        [("section1", TreeConfigParser [("option2", Str "2")])])
  /\ read_line_py "    # option2 = 2" ["section1"] "#" 4 []
     = (Return ["section1"], []).
Proof.
  split; [|split].
  - destruct (indentation_of_a_line "      option2 = 2" ["section1"] "#" 4 [])
      as [_ H]; [lia|].
    destruct H as [H _]; [reflexivity | reflexivity |].
    apply H. left. change (leading_width "      option2 = 2") with 6%Z.
    intros [z Hz]. lia.
  - destruct (indentation_of_a_line "    option2 = 2" ["section1"] "#" 4 [])
      as [_ H]; [lia|].
    destruct H as [_ H]; [reflexivity | reflexivity |].
    rewrite H; [reflexivity | discriminate].
  - destruct (indentation_of_a_line "    # option2 = 2" ["section1"] "#" 4 [])
      as [H _]; [lia|].
    apply H. reflexivity.
Defined.

(** C6 at work on the tree of the documentation. *)
Lemma suboptions_preorder_witness :
  StronglySorted
    (precedes
       [("option1", Str "1");
        ("section1",
         TreeConfigParser
           [("option2", Str "2");
            ("subsection11", TreeConfigParser [("option3", Str "3")])])])
    [["option1"]; ["section1"; "option2"];
     ["section1"; "subsection11"; "option3"]].
Proof.
  apply (suboptions_preorder
           [("option1", Str "1");
            ("section1",
             TreeConfigParser
               [("option2", Str "2");
                ("subsection11", TreeConfigParser [("option3", Str "3")])])]).
  wf_tree.
Defined.

(** C5 at work on the trees of the documentation. *)
Lemma merge_imports_witness :
  at_keylist ["option2"]
    (TreeConfigParser
       (merge_root [("option2", Str "3"); ("option3", Str "3")]
          [("option2", Str "2")]))
  = Some (Str "3").
Proof.
  destruct (merge_imports [("option2", Str "3"); ("option3", Str "3")])
    as [_ [_ [H _]]].
  - wf_tree.
  - apply H. reflexivity.
Defined.

(** C2 refuted.  Two options, so a budget of one; the first value holds
    three references to the second.  [solve_references] resolves the three
    of them, each with budget zero; with one budget for the whole pass the
    second reference finds it spent. *)
Lemma budget_is_not_shared :
  solve_references no_host "%" [("a", Str "%b% %b% %b%"); ("b", Str "v")]
  = (Return tt, [("a", Str "v v v"); ("b", Str "v")])
  /\ fst (shared_solve_references no_host "%"
            [("a", Str "%b% %b% %b%"); ("b", Str "v")])
     = Raise CrossReferenceError.
Proof. split; reflexivity. Qed.

(** C2, amended, at work: a reference met with budget zero. *)
Lemma budget_per_nesting_level_witness :
  solve_references_string no_host "%b%" 0 "%" [("b", Str "v")]
  = (Raise CrossReferenceError, [("b", Str "v")]).
Proof.
  destruct (budget_per_nesting_level Empty_set no_host "%") as [_ [_ [H _]]].
  apply H. reflexivity.
Defined.

(** The circular references of the documentation. *)
Example circular_references :
  solve_references no_host "%" [("a", Str "%b%"); ("b", Str "%a%")]
  = (Raise CrossReferenceError, [("a", Str "%b%"); ("b", Str "%a%")]).
Proof. reflexivity. Qed.



(** * The further properties at work *)

(** X1 at work: [option1] holds a text and is asked to hold [option2]. *)
Lemma set_failure_changes_nothing_witness :
  snd (set ["option1"; "option2"] "2" true [("option1", Str "1")])
  = [("option1", Str "1")].
Proof.
  apply (set_failure_changes_nothing ["option1"; "option2"] "2" true
           [("option1", Str "1")] _ AttributeError).
  reflexivity.
Defined.

(** X2 at work: two sections made on the way, in an empty tree. *)
Lemma set_update_tree_returns_witness :
  exists t',
    set ["section1"; "subsection11"; "option1"] "1" true []
    = (Return tt, t').
Proof.
  apply (set_update_tree_returns ["section1"; "subsection11"; "option1"]
           "1" []).
  - discriminate.
  - intros [p [rest [s [_ [Hp [_ H]]]]]].
    destruct p; [congruence | discriminate].
Defined.

(** X3 at work: a new option at the root. *)
Lemma set_without_update_tree_witness :
  (exists t', set ["option1"] "1" false [] = (Return tt, t'))
  <-> exists sub,
      at_keylist (removelast ["option1"]) (TreeConfigParser [])
      = Some (TreeConfigParser sub).
Proof.
  apply (set_without_update_tree ["option1"] "1" []). discriminate.
Defined.

(** X4 at work: [option2] is set, [option1] is as it was. *)
Lemma set_elsewhere_witness :
  at_keylist ([] ++ "option1" :: [])
    (TreeConfigParser (snd (set ["option2"] "2" false [("option1", Str "1")])))
  = at_keylist ([] ++ "option1" :: [])
      (TreeConfigParser [("option1", Str "1")]).
Proof.
  apply (set_elsewhere [] "option2" "option1" [] [] "2" false
           [("option1", Str "1")] _ (Return tt)).
  - discriminate.
  - reflexivity.
Defined.

(** X5 at work: a new key goes to the end. *)
Lemma set_keeps_order_witness :
  keys (snd (set ["option2"] "2" false [("option1", Str "1")]))
  = if mem "option2" [("option1", Str "1")]
    then keys [("option1", Str "1")]
    else keys [("option1", Str "1")] ++ ["option2"].
Proof.
  apply (set_keeps_order "option2" [] "2" false [("option1", Str "1")]).
  reflexivity.
Defined.

(** X6 at work: a key that the tree has. *)
Lemma remove_option_returns_witness :
  (exists t',
      remove_option ["option1"] [("option1", Str "1")] = (Return tt, t'))
  <-> exists x,
      at_keylist ["option1"] (TreeConfigParser [("option1", Str "1")])
      = Some x.
Proof.
  apply (remove_option_returns ["option1"] [("option1", Str "1")]).
  discriminate.
Defined.

(** X7 at work: the only option of [section1] is removed, [section1]
    stays. *)
Lemma remove_option_removes_witness :
  at_keylist ["section1"; "option1"]
    (TreeConfigParser
       (snd (remove_option ["section1"; "option1"]
               [("section1", TreeConfigParser [("option1", Str "1")])])))
  = None
  /\ at_keylist (removelast ["section1"; "option1"])
       (TreeConfigParser
          (snd (remove_option ["section1"; "option1"]
                  [("section1", TreeConfigParser [("option1", Str "1")])])))
     = Some (TreeConfigParser
               (delete (last ["section1"; "option1"] EmptyString)
                  [("option1", Str "1")]))
  /\ wf (snd (remove_option ["section1"; "option1"]
                [("section1", TreeConfigParser [("option1", Str "1")])])).
Proof.
  apply (remove_option_removes ["section1"; "option1"]
           [("section1", TreeConfigParser [("option1", Str "1")])]).
  - wf_tree.
  - reflexivity.
  - reflexivity.
Defined.

(** X8 at work: [option2] is removed, [option1] is as it was. *)
Lemma remove_option_elsewhere_witness :
  at_keylist ([] ++ "option1" :: [])
    (TreeConfigParser
       (snd (remove_option ["option2"]
               [("option1", Str "1"); ("option2", Str "2")])))
  = at_keylist ([] ++ "option1" :: [])
      (TreeConfigParser [("option1", Str "1"); ("option2", Str "2")]).
Proof.
  apply (remove_option_elsewhere [] "option2" "option1" [] []
           [("option1", Str "1"); ("option2", Str "2")] _ (Return tt)).
  - discriminate.
  - reflexivity.
Defined.

(** X9 at work: [option2] added, then removed. *)
Lemma remove_option_after_set_witness :
  remove_option ["option2"]
    (snd (set ["option2"] "2" false [("option1", Str "1")]))
  = (Return tt, [("option1", Str "1")]).
Proof.
  apply (remove_option_after_set ["option2"] "2" [("option1", Str "1")]);
    reflexivity.
Defined.

(** X10 at work on the trees of the documentation. *)
Lemma merge_twice_witness :
  merge_root [("option2", Str "3"); ("option3", Str "3")]
    (merge_root [("option2", Str "3"); ("option3", Str "3")]
       [("option2", Str "2")])
  = merge_root [("option2", Str "3"); ("option3", Str "3")]
      [("option2", Str "2")].
Proof.
  apply (merge_twice [("option2", Str "3"); ("option3", Str "3")]
           [("option2", Str "2")]).
  wf_tree.
Defined.

(** X11 at work: nothing in common. *)
Lemma merge_into_disjoint_witness :
  merge [("option2", Str "2")] None false [("option1", Str "1")]
  = (Return tt, [("option1", Str "1")] ++ [("option2", Str "2")])
  /\ merge [("option2", Str "2")] None false [] =
     (Return tt, [("option2", Str "2")]).
Proof.
  apply (merge_into_disjoint [("option2", Str "2")] [("option1", Str "1")]
           false).
  - wf_tree.
  - intros key H1 H2. simpl in H1, H2.
    destruct H1 as [H1|[]]. destruct H2 as [H2|[]]. subst key. discriminate.
Defined.

(** X13 at work on a section of the documentation. *)
Lemma clone_is_subconfig_witness :
  clone (Some ["section1"])
    [("section1", TreeConfigParser [("option1", Str "1")])]
  = subconfig (Some ["section1"])
      [("section1", TreeConfigParser [("option1", Str "1")])].
Proof.
  apply (clone_is_subconfig (Some ["section1"])
           [("section1", TreeConfigParser [("option1", Str "1")])]).
  wf_tree.
Defined.


(** X16 at work: a level in capitals, and a text that names no level. *)
Lemma string_to_log_level_names_witness :
  (exists n,
      string_conversion no_host (Str "WARNING") "log_level"
      = Return (PyInt n))
  /\ string_conversion no_host (Str "loud") "log_level"
     = Raise (ValueError
                (quoted "loud" ++ " cannot be converted to logging level")).
Proof.
  split.
  - destruct (string_to_log_level_names Empty_set no_host "WARNING")
      as [_ [H _]].
    apply H. simpl. tauto.
  - destruct (string_to_log_level_names Empty_set no_host "loud")
      as [_ [_ H]].
    apply H. simpl. intuition discriminate.
Defined.

(** X17 at work: a type that is not registered. *)
Lemma unknown_conversion_witness :
  get no_host ["option1"] "complex" [("option1", Str "1")] = Raise TypeError.
Proof.
  destruct (unknown_conversion Empty_set no_host "complex") as [_ H].
  - simpl. intuition discriminate.
  - apply (H ["option1"] [("option1", Str "1")] (Str "1")).
    + discriminate.
    + reflexivity.
Defined.

(** X18 at work: an option followed by a comment. *)
Lemma comments_are_ignored_witness :
  read_line_py ("option1 = 1 " ++ String "#" " the first") [] "#" 4 []
  = read_line_py "option1 = 1 " [] "#" 4 [].
Proof.
  apply (comments_are_ignored "option1 = 1 " " the first" [] "#" 4 []).
  reflexivity.
Defined.

(** X19 at work on the tree of the documentation. *)
Lemma resolution_without_references_witness :
  solve_references no_host "%"
    [("option1", Str "1");
     ("section1", TreeConfigParser [("option2", Str "2")])]
  = (Return tt,
     [("option1", Str "1");
      ("section1", TreeConfigParser [("option2", Str "2")])]).
Proof.
  apply (resolution_without_references Empty_set no_host "%").
  - wf_tree.
  - reflexivity.
Defined.

(** X20 at work: [a = %a%], with a budget of five. *)
Lemma self_reference_witness :
  solve_references_keylist no_host ["a"] 5 "%" [("a", Str "%a%")]
  = (Raise CrossReferenceError, [("a", Str "%a%")]).
Proof.
  apply (self_reference Empty_set no_host "%" "a" [("a", Str "%a%")]).
  - discriminate.
  - reflexivity.
  - reflexivity.
  - reflexivity.
Defined.

(** X21 at work: the example of the documentation, [%a%-%b%]. *)
Lemma references_to_plain_options_witness :
  solve_references_string no_host "%a%-%b%" 1 "%"
    [("a", Str "x"); ("b", Str "y")]
  = (Return "x-y", [("a", Str "x"); ("b", Str "y")]).
Proof.
  apply (references_to_plain_options Empty_set no_host "%" "%a%-%b%" 0
           [("a", Str "x"); ("b", Str "y")]).
  - reflexivity.
  - intros ref [H|[H|[]]]; subst ref.
    + exists "x". split; reflexivity.
    + exists "y". split; reflexivity.
Defined.

(** X23 at work: a keylist that leads to an option. *)
Lemma substitution_under_keylist_witness :
  substitution "1" "2" (Some ["option1"]) [("option1", Str "1")]
  = (Raise AttributeError, [("option1", Str "1")]).
Proof.
  destruct (substitution_under_keylist "1" "2" ["option1"]
              [("option1", Str "1")]) as [_ H].
  apply (H "1").
  - discriminate.
  - reflexivity.
Defined.

(** X24 at work: the replacement is done in [section1], [option1] is as it
    was. *)
Lemma substitution_elsewhere_witness :
  at_keylist ([] ++ "option1" :: [])
    (TreeConfigParser
       (snd (substitution "1" "2" (Some ([] ++ "section1" :: []))
               [("option1", Str "1");
                ("section1", TreeConfigParser [("option2", Str "1")])])))
  = at_keylist ([] ++ "option1" :: [])
      (TreeConfigParser
         [("option1", Str "1");
          ("section1", TreeConfigParser [("option2", Str "1")])]).
Proof.
  apply (substitution_elsewhere "1" "2" [] "section1" "option1" [] []
           [("option1", Str "1");
            ("section1", TreeConfigParser [("option2", Str "1")])]
           _ (Return tt)).
  - discriminate.
  - reflexivity.
Defined.

(** X25 at work: an option set through another option. *)
Lemma methods_keep_keys_distinct_witness :
  wf (snd (set ["option1"; "option2"] "2" true [("option1", Str "1")])).
Proof.
  destruct (methods_keep_keys_distinct [("option1", Str "1")]) as [H _].
  - wf_tree.
  - apply H.
Defined.

(** X26 at work: a file with the same option twice. *)
Lemma read_file_keeps_keys_distinct_witness :
  wf (snd (read_file no_host ["option1 = 1"; "option1 = 2"] "#" "%" 4 [])).
Proof.
  destruct (read_file_keeps_keys_distinct Empty_set no_host
              ["option1 = 1"; "option1 = 2"] "#" "%" 4 []) as [H _].
  - wf_tree.
  - exact H.
Defined.


(** X29 at work on the tree of the documentation. *)
Lemma tofile_flat_lines_witness :
  tofile_flat
    [("option1", Str "1");
     ("section1", TreeConfigParser [("option2", Str "2")])]
  = map Str.lstrip
      (tofile
         [("option1", Str "1");
          ("section1", TreeConfigParser [("option2", Str "2")])]
         4).
Proof.
  apply (tofile_flat_lines "#" 4
           [("option1", Str "1");
            ("section1", TreeConfigParser [("option2", Str "2")])]).
  reflexivity.
Defined.
